(** * MD1D: a single particle in a one-dimensional confining potential

    Shallow embedding of [particle.py], [potentials.py] and of
    [simulate_particle] from [particle_sim.py].

    Numbers.  The Python code computes with binary64 floats.  They are
    modelled by the rationals [Q] with exact arithmetic: the statements below
    are about the algebra of the integrator, and the rounding of each
    operation is left out.  Equality of computed values is therefore [Qeq]
    (written [==]) wherever two expressions are only equal as numbers, and
    Leibniz equality where the code computes the very same expression.  The
    one arithmetic failure of the exact model is kept: a division by zero
    raises [ZeroDivisionError].

    Effects.  A [Particle1D] is mutated in place by its methods; here each
    method returns the new particle and [simulate_particle] returns the final
    particle next to the arrays it builds.  The [while] loop is run with
    fuel; [OutOfFuel] means that the loop was still running when the fuel
    was used up, and an outcome that was reached does not depend on the
    fuel ([while_loop_more_fuel]). *)

From Stdlib Require Import QArith Qabs Qround ZArith List Lia Lra Psatz Bool.
Import ListNotations.
Open Scope Q_scope.

(** ** Outcomes of a Python call *)

Inductive Exception : Type :=
| ZeroDivisionError.

Inductive Result (A : Type) : Type :=
| Returned (a : A)
| Raised (e : Exception)
| OutOfFuel.

Arguments Returned {A} a.
Arguments Raised {A} e.
Arguments OutOfFuel {A}.

Definition bind {A B : Type} (r : Result A) (f : A -> Result B) : Result B :=
  match r with
  | Returned a => f a
  | Raised e => Raised e
  | OutOfFuel => OutOfFuel
  end.

Notation "x <- r ;; k" := (bind r (fun x => k))
  (at level 61, r at next level, right associativity).

(** [a / b] on Python floats: a zero divisor raises.  (Once [np.sign] has
    made the force of the box a numpy scalar, numpy divides by zero to
    [inf] or [nan] with a warning instead; [Q] has no such values, and no
    statement below is about a massless particle outside the box.) *)
Definition truediv (a b : Q) : Result Q :=
  if Qeq_bool b 0 then Raised ZeroDivisionError else Returned (a / b).

(** [a < b] as a boolean. *)
Definition Qltb (a b : Q) : bool := negb (Qle_bool b a).

(** [np.sign]. *)
Definition sign (x : Q) : Q :=
  match x ?= 0 with
  | Lt => -1
  | Eq => 0
  | Gt => 1
  end.

(** ** particle.py *)

Record Particle1D : Type := mkParticle1D {
  position : Q;
  velocity : Q;
  mass : Q;
  acceleration : Q
}.

(** [Particle1D.__init__].  [random] and [uniform] are the values that
    [np.random.random()] and [np.random.uniform(-1, 1)] return when they are
    called; an argument left out is [None]. *)
Definition Particle1D_init (random uniform : Q)
    (position velocity : option Q) (mass : Q) : Particle1D :=
  {| position := match position with None => random | Some x => x end;
     velocity := match velocity with None => uniform | Some v => v end;
     mass := mass;
     acceleration := 0 |}.

Definition apply_force (self : Particle1D) (force : Q) : Result Particle1D :=
  a <- truediv force (mass self) ;;
  Returned {| position := position self;
              velocity := velocity self;
              mass := mass self;
              acceleration := a |}.

Definition update_position (self : Particle1D) (dt : Q) : Particle1D :=
  {| position := position self + velocity self * dt;
     velocity := velocity self;
     mass := mass self;
     acceleration := acceleration self |}.

Definition update_velocity (self : Particle1D) (dt : Q) : Particle1D :=
  {| position := position self;
     velocity := velocity self + acceleration self * dt;
     mass := mass self;
     acceleration := acceleration self |}.

(** ** potentials.py *)

(** The interface of the base class [Potential]: [__call__] is the potential
    energy, [force] the force. *)
Class Potential (P : Type) : Type := {
  call : P -> Q -> Q;
  force : P -> Q -> Q
}.

Inductive NoPotential : Type :=
| NoPotential_init.

#[export] Instance NoPotential_Potential : Potential NoPotential := {
  call _ _ := 0;
  force _ _ := 0
}.

Module Harmonic.
Record HarmonicPotential : Type := init { k : Q; center : Q }.

Definition call (self : HarmonicPotential) (x : Q) : Q :=
  let dx := x - center self in
  (1 # 2) * k self * dx ^ 2.

Definition force (self : HarmonicPotential) (x : Q) : Q :=
  - k self * (x - center self).
End Harmonic.

#[export] Instance HarmonicPotential_Potential
  : Potential Harmonic.HarmonicPotential := {
  call := Harmonic.call;
  force := Harmonic.force
}.

Module Quartic.
Record QuarticPotential : Type := init { a : Q; center : Q }.

Definition call (self : QuarticPotential) (x : Q) : Q :=
  let dx := x - center self in
  a self * dx ^ 4.

Definition force (self : QuarticPotential) (x : Q) : Q :=
  let dx := x - center self in
  (-4) * a self * dx ^ 3.
End Quartic.

#[export] Instance QuarticPotential_Potential
  : Potential Quartic.QuarticPotential := {
  call := Quartic.call;
  force := Quartic.force
}.

Module Box.
Record BoxPotential : Type := mk {
  width : Q;
  center : Q;
  wall_stiffness : Q;
  half_width : Q
}.

(** [BoxPotential.__init__]. *)
Definition init (width center wall_stiffness : Q) : BoxPotential :=
  {| width := width;
     center := center;
     wall_stiffness := wall_stiffness;
     half_width := width / 2 |}.

Definition call (self : BoxPotential) (x : Q) : Q :=
  let dx := Qabs (x - center self) in
  if Qle_bool dx (half_width self) then 0
  else
    let overshoot := dx - half_width self in
    (1 # 2) * wall_stiffness self * overshoot ^ 2.

Definition force (self : BoxPotential) (x : Q) : Q :=
  let dx := x - center self in
  if Qle_bool (Qabs dx) (half_width self) then 0
  else
    let sign := sign dx in
    let overshoot := Qabs dx - half_width self in
    - sign * wall_stiffness self * overshoot.
End Box.

#[export] Instance BoxPotential_Potential : Potential Box.BoxPotential := {
  call := Box.call;
  force := Box.force
}.

(** ** particle_sim.py *)

(** The dictionary [energies], with its three keys. *)
Record Energies : Type := mkEnergies {
  kinetic : list Q;
  potential : list Q;
  total : list Q
}.

(** The tuple that [simulate_particle] returns. *)
Record Trajectory : Type := mkTrajectory {
  times : list Q;
  positions : list Q;
  velocities : list Q;
  energies : Energies
}.

(** The local variables of [simulate_particle], with the particle that it
    mutates. *)
Record Locals : Type := mkLocals {
  particle : Particle1D;
  time : Q;
  l_times : list Q;
  l_positions : list Q;
  l_velocities : list Q;
  ke : list Q;
  pe : list Q;
  total_e : list Q
}.

Section Simulate.
Context {P : Type} `{Potential P}.
Variable pot : P.
Variable duration : Q.
Variable dt : Q.

(** Lines 38 to 46: the initial sample. *)
Definition initial (p : Particle1D) : Locals :=
  let ke := [(1 # 2) * mass p * velocity p ^ 2] in
  let pe := [call pot (position p)] in
  {| particle := p;
     time := 0;
     l_times := [0];
     l_positions := [position p];
     l_velocities := [velocity p];
     ke := ke;
     pe := pe;
     total_e := [nth 0 ke 0 + nth 0 pe 0] |}.

(** Lines 49 to 71: one iteration of the loop. *)
Definition loop_body (s : Locals) : Result Locals :=
  let p := particle s in
  let f := force pot (position p) in
  p <- apply_force p f ;;
  let p := update_velocity p (dt / 2) in
  let p := update_position p dt in
  let f := force pot (position p) in
  p <- apply_force p f ;;
  let p := update_velocity p (dt / 2) in
  let time := time s + dt in
  let ke := ke s ++ [(1 # 2) * mass p * velocity p ^ 2] in
  let pe := pe s ++ [call pot (position p)] in
  Returned {| particle := p;
              time := time;
              l_times := l_times s ++ [time];
              l_positions := l_positions s ++ [position p];
              l_velocities := l_velocities s ++ [velocity p];
              ke := ke;
              pe := pe;
              total_e := total_e s ++ [last ke 0 + last pe 0] |}.

(** Line 48: [while time < duration]. *)
Fixpoint while_loop (fuel : nat) (s : Locals) : Result Locals :=
  if Qltb (time s) duration then
    match fuel with
    | O => OutOfFuel
    | S fuel => s <- loop_body s ;; while_loop fuel s
    end
  else Returned s.

(** Lines 73 to 79. *)
Definition result (s : Locals) : Particle1D * Trajectory :=
  (particle s,
   {| times := l_times s;
      positions := l_positions s;
      velocities := l_velocities s;
      energies := {| kinetic := ke s;
                     potential := pe s;
                     total := total_e s |} |}).

Definition simulate_particle (fuel : nat) (p : Particle1D)
  : Result (Particle1D * Trajectory) :=
  s <- while_loop fuel (initial p) ;;
  Returned (result s).
End Simulate.

Arguments simulate_particle {P _} pot duration dt fuel p.
Arguments while_loop {P _} pot duration dt fuel s.
Arguments loop_body {P _} pot dt s.
Arguments initial {P _} pot p.

(** ** Vocabulary of the statements *)

Section Step.
Context {P : Type} `{Potential P}.
Variable pot : P.
Variable dt : Q.

(** The particle that one iteration of the loop leaves behind when neither
    division fails: half kick, drift, half kick. *)
Definition kick_drift_kick (p : Particle1D) : Particle1D :=
  let a1 := force pot (position p) / mass p in
  let v_half := velocity p + a1 * (dt / 2) in
  let x := position p + v_half * dt in
  let a2 := force pot x / mass p in
  {| position := x;
     velocity := v_half + a2 * (dt / 2);
     mass := mass p;
     acceleration := a2 |}.

(** The locals after an iteration that leaves the particle as [p]. *)
Definition record_sample (s : Locals) (p : Particle1D) : Locals :=
  {| particle := p;
     time := time s + dt;
     l_times := l_times s ++ [time s + dt];
     l_positions := l_positions s ++ [position p];
     l_velocities := l_velocities s ++ [velocity p];
     ke := ke s ++ [(1 # 2) * mass p * velocity p ^ 2];
     pe := pe s ++ [call pot (position p)];
     total_e := total_e s
                ++ [(1 # 2) * mass p * velocity p ^ 2 + call pot (position p)] |}.

(** The velocity Verlet equations between samples [i - 1] and [i] of three
    arrays, for a particle of mass [m]. *)
Definition verlet_at (m : Q) (ts xs vs : list Q) (i : nat) : Prop :=
  let v_half :=
    nth (i - 1) vs 0 + (dt / 2) * force pot (nth (i - 1) xs 0) / m in
  nth i xs 0 == nth (i - 1) xs 0 + dt * v_half /\
  nth i vs 0 == v_half + (dt / 2) * force pot (nth i xs 0) / m /\
  nth i ts 0 == nth (i - 1) ts 0 + dt.
End Step.

Arguments kick_drift_kick {P _} pot dt p.
Arguments record_sample {P _} pot dt s p.
Arguments verlet_at {P _} pot dt m ts xs vs i.

(** The six arrays are index-aligned and their last entries are the current
    time and the current state of the particle. *)
Record aligned (s : Locals) : Prop := {
  al_nonempty : (0 < length (l_times s))%nat;
  al_positions : length (l_positions s) = length (l_times s);
  al_velocities : length (l_velocities s) = length (l_times s);
  al_ke : length (ke s) = length (l_times s);
  al_pe : length (pe s) = length (l_times s);
  al_total_e : length (total_e s) = length (l_times s);
  al_time : last (l_times s) 0 = time s;
  al_position : last (l_positions s) 0 = position (particle s);
  al_velocity : last (l_velocities s) 0 = velocity (particle s)
}.


(** The trajectory that holds the initial sample only. *)
Definition initial_sample {P : Type} `{Potential P} (pot : P)
    (p : Particle1D) : Trajectory :=
  let ke0 := (1 # 2) * mass p * velocity p ^ 2 in
  let pe0 := call pot (position p) in
  {| times := [0];
     positions := [position p];
     velocities := [velocity p];
     energies := {| kinetic := [ke0];
                    potential := [pe0];
                    total := [ke0 + pe0] |} |}.





(** ** Invariants of the loop and inputs of the examples *)

(** What holds of the locals at every evaluation of the guard: the arrays
    are aligned, the mass is the initial one, the first samples are the
    initial state, and every later sample follows from the one before by
    the velocity Verlet equations. *)
Record trace_inv {P : Type} `{Potential P} (pot : P) (dt : Q)
    (p : Particle1D) (s : Locals) : Prop := {
  ti_aligned : aligned s;
  ti_mass : mass (particle s) = mass p;
  ti_first_time : nth 0 (l_times s) 0 = 0;
  ti_first_position : nth 0 (l_positions s) 0 = position p;
  ti_first_velocity : nth 0 (l_velocities s) 0 = velocity p;
  ti_verlet : forall i, (1 <= i < length (l_times s))%nat ->
      verlet_at pot dt (mass p) (l_times s) (l_positions s) (l_velocities s) i
}.

(** The time is the step times the number of iterations so far, and the
    guard held before the last of them. *)
Record count_inv (duration dt : Q) (s : Locals) : Prop := {
  ci_time : time s + dt == inject_Z (Z.of_nat (length (l_times s))) * dt;
  ci_guard : length (l_times s) = 1%nat \/ time s - dt < duration
}.

(** Without a force the velocity stays what it was and the position is the
    initial one plus the velocity times the time, at every sample. *)
Record free_inv (p : Particle1D) (s : Locals) : Prop := {
  fi_velocity : velocity (particle s) == velocity p;
  fi_position :
    position (particle s) == position p + velocity p * time s;
  fi_samples : forall i, (i < length (l_times s))%nat ->
      nth i (l_positions s) 0
      == position p + velocity p * nth i (l_times s) 0
      /\ nth i (l_velocities s) 0 == velocity p
}.

(** The energy that a sample records for a particle. *)
Definition total_energy {P : Type} `{Potential P} (pot : P)
    (p : Particle1D) : Q :=
  (1 # 2) * mass p * velocity p ^ 2 + call pot (position p).

(** The energy of the harmonic oscillator with its spring softened by
    the factor [1 - k dt^2 / (4 m)]: the quantity that a kick-drift-kick step
    keeps exactly. *)
Definition shadow_energy (k c dt : Q) (p : Particle1D) : Q :=
  (1 # 2) * mass p * velocity p ^ 2
  + (1 # 2) * k * (1 - k * dt ^ 2 / (4 * mass p)) * (position p - c) ^ 2.

(** The shadow energy is kept, and every recorded total energy is within
    one percent of the first one. *)
Record energy_inv (k c dt : Q) (p : Particle1D) (s : Locals) : Prop := {
  ei_mass : mass (particle s) = mass p;
  ei_shadow :
    shadow_energy k c dt (particle s) == shadow_energy k c dt p;
  ei_nonempty : (0 < length (total_e s))%nat;
  ei_first : nth 0 (total_e s) 0 = total_energy (Harmonic.init k c) p;
  ei_samples : forall i, (i < length (total_e s))%nat ->
      Qabs (nth i (total_e s) 0 - total_energy (Harmonic.init k c) p)
      <= (1 # 100) * total_energy (Harmonic.init k c) p
      /\ (0 < total_energy (Harmonic.init k c) p ->
          Qabs (nth i (total_e s) 0 - total_energy (Harmonic.init k c) p)
          < (1 # 100) * total_energy (Harmonic.init k c) p)
}.

(** A particle at rest at [1] with unit mass, and one that moves. *)
Definition particle_at_rest : Particle1D :=
  Particle1D_init 0 0 (Some 1) (Some 0) 1.

Definition particle_moving : Particle1D :=
  Particle1D_init 0 0 (Some 1) (Some 3) 2.



(** ** Further invariants of the loop *)

(** Every recorded energy is the energy of the state recorded beside it. *)
Record energy_record_inv {P : Type} `{Potential P} (pot : P) (m : Q)
    (s : Locals) : Prop := {
  er_aligned : aligned s;
  er_mass : mass (particle s) = m;
  er_samples : forall i, (i < length (l_times s))%nat ->
      nth i (ke s) 0 = (1 # 2) * m * nth i (l_velocities s) 0 ^ 2
      /\ nth i (pe s) 0 = call pot (nth i (l_positions s) 0)
      /\ nth i (total_e s) 0 = nth i (ke s) 0 + nth i (pe s) 0
}.

(** The recorded times are the multiples of the step. *)
Record clock_inv (dt : Q) (s : Locals) : Prop := {
  ck_time : time s + dt == inject_Z (Z.of_nat (length (l_times s))) * dt;
  ck_samples : forall i, (i < length (l_times s))%nat ->
      nth i (l_times s) 0 == inject_Z (Z.of_nat i) * dt
}.

(** A function of a number that gives equal values at equal numbers. *)
Definition respects_eq (f : Q -> Q) : Prop :=
  forall x y, x == y -> f x == f y.

(** Two particles in the same state of motion: the acceleration, which an
    iteration overwrites before it reads it, is left out. *)
Definition same_motion (p q : Particle1D) : Prop :=
  position p == position q /\ velocity p == velocity q /\ mass p = mass q.

(** The particle after [particle.velocity = -particle.velocity]. *)
Definition reverse (p : Particle1D) : Particle1D :=
  {| position := position p;
     velocity := - velocity p;
     mass := mass p;
     acceleration := acceleration p |}.

(** The particle is the initial one after as many iterations as samples
    were appended. *)
Record steps_inv {P : Type} `{Potential P} (pot : P) (dt : Q)
    (p : Particle1D) (s : Locals) : Prop := {
  st_nonempty : (0 < length (l_times s))%nat;
  st_particle :
    particle s
    = Nat.iter (length (l_times s) - 1) (kick_drift_kick pot dt) p
}.

(** The particle rests where it started, and so does every sample. *)
Record rest_inv (p : Particle1D) (s : Locals) : Prop := {
  ri_aligned : aligned s;
  ri_position : position (particle s) == position p;
  ri_velocity : velocity (particle s) == 0;
  ri_samples : forall i, (i < length (l_times s))%nat ->
      nth i (l_positions s) 0 == position p
      /\ nth i (l_velocities s) 0 == 0
}.

(** The shadow energy of a state of the harmonic oscillator, and the
    invariant that every sample has the shadow energy of the first. *)
Definition shadow (k c dt m x v : Q) : Q :=
  (1 # 2) * m * v ^ 2
  + (1 # 2) * (k * (1 - k * dt ^ 2 / (4 * m))) * (x - c) ^ 2.

Record shadow_inv (k c dt : Q) (p : Particle1D) (s : Locals) : Prop := {
  sh_aligned : aligned s;
  sh_mass : mass (particle s) = mass p;
  sh_particle :
    shadow k c dt (mass p) (position (particle s)) (velocity (particle s))
    == shadow k c dt (mass p) (position p) (velocity p);
  sh_samples : forall i, (i < length (l_times s))%nat ->
      shadow k c dt (mass p) (nth i (l_positions s) 0)
        (nth i (l_velocities s) 0)
      == shadow k c dt (mass p) (position p) (velocity p)
}.

(** Sample [i] is the state of the particle after [i] iterations. *)
Record iterates_inv {P : Type} `{Potential P} (pot : P) (dt : Q)
    (p : Particle1D) (s : Locals) : Prop := {
  it_aligned : aligned s;
  it_particle :
    particle s
    = Nat.iter (length (l_times s) - 1) (kick_drift_kick pot dt) p;
  it_samples : forall i, (i < length (l_times s))%nat ->
      nth i (l_positions s) 0
      = position (Nat.iter i (kick_drift_kick pot dt) p)
      /\ nth i (l_velocities s) 0
         = velocity (Nat.iter i (kick_drift_kick pot dt) p)
}.

(** A force that is odd about [c]. *)
Definition odd_about {P : Type} `{Potential P} (pot : P) (c : Q) : Prop :=
  forall x, force pot (2 * c - x) == - force pot x.

(** The particle constructed at the mirror image of [p] about [c], moving
    the other way. *)
Definition mirror (c : Q) (p : Particle1D) : Particle1D :=
  Particle1D_init 0 0 (Some (2 * c - position p)) (Some (- velocity p))
    (mass p).

(** ** Arithmetic helpers *)

Lemma Qltb_lt (a b : Q) : Qltb a b = true <-> a < b.
Proof.
  unfold Qltb. rewrite negb_true_iff.
  split; intro Hab.
  - apply Qnot_le_lt. intro Hle. apply Qle_bool_iff in Hle. congruence.
  - destruct (Qle_bool b a) eqn:E; [|reflexivity].
    apply Qle_bool_iff in E. lra.
Qed.

Lemma Qltb_ge (a b : Q) : Qltb a b = false <-> b <= a.
Proof.
  unfold Qltb. rewrite negb_false_iff. apply Qle_bool_iff.
Qed.

Lemma Qle_bool_false (a b : Q) : Qle_bool a b = false <-> b < a.
Proof.
  rewrite <- Qltb_lt. unfold Qltb.
  destruct (Qle_bool a b); simpl; intuition congruence.
Qed.

Lemma truediv_nonzero (a b : Q) : ~ b == 0 -> truediv a b = Returned (a / b).
Proof.
  intro Hb. unfold truediv.
  destruct (Qeq_bool b 0) eqn:E; [|reflexivity].
  apply Qeq_bool_iff in E. contradiction.
Qed.

Lemma truediv_zero (a b : Q) : b == 0 -> truediv a b = Raised ZeroDivisionError.
Proof.
  intro Hb. unfold truediv. apply Qeq_bool_iff in Hb. now rewrite Hb.
Qed.

(** The ceiling is the one integer [z] with [z - 1 < x <= z]. *)
Lemma Qceiling_unique (x : Q) (z : Z) :
  inject_Z z - 1 < x -> x <= inject_Z z -> Qceiling x = z.
Proof.
  intros Hlo Hhi.
  pose proof (Qle_ceiling x) as Hc1.
  pose proof (Qceiling_lt x) as Hc2.
  assert (H1 : inject_Z (Qceiling x - 1) < inject_Z z) by lra.
  assert (H2 : inject_Z z < inject_Z (Qceiling x + 1)).
  { rewrite inject_Z_plus. change (inject_Z 1) with 1. lra. }
  rewrite <- Zlt_Qlt in H1, H2. lia.
Qed.

(** ** Lists built by [append] *)

Lemma nth_snoc_old {A : Type} (l : list A) (x d : A) (i : nat) :
  (i < length l)%nat -> nth i (l ++ [x]) d = nth i l d.
Proof. intro Hi. now apply app_nth1. Qed.

Lemma nth_snoc_new {A : Type} (l : list A) (x d : A) :
  nth (length l) (l ++ [x]) d = x.
Proof. now rewrite nth_middle. Qed.

Lemma last_as_nth {A : Type} (l : list A) (d : A) :
  last l d = nth (length l - 1) l d.
Proof.
  induction l as [|a [|b l] IH]; try reflexivity.
  change (last (a :: b :: l) d) with (last (b :: l) d).
  rewrite IH. simpl. now rewrite Nat.sub_0_r.
Qed.

(** ** One iteration of the loop *)

Section LoopBody.
Context {P : Type} `{Potential P}.
Variable pot : P.
Variable dt : Q.

Lemma loop_body_nonzero (s : Locals) :
  ~ mass (particle s) == 0 ->
  loop_body pot dt s
  = Returned (record_sample pot dt s (kick_drift_kick pot dt (particle s))).
Proof.
  intro Hm. unfold loop_body, apply_force.
  rewrite (truediv_nonzero _ _ Hm). cbn [bind].
  cbn [update_velocity update_position position velocity mass acceleration].
  rewrite (truediv_nonzero _ _ Hm). cbn [bind].
  unfold record_sample, kick_drift_kick.
  cbn [update_velocity position velocity mass acceleration].
  now rewrite !last_last.
Qed.

Lemma loop_body_zero (s : Locals) :
  mass (particle s) == 0 -> loop_body pot dt s = Raised ZeroDivisionError.
Proof.
  intro Hm. unfold loop_body, apply_force.
  now rewrite (truediv_zero _ _ Hm).
Qed.

Lemma loop_body_cases (s : Locals) :
  (mass (particle s) == 0 /\ loop_body pot dt s = Raised ZeroDivisionError)
  \/ (~ mass (particle s) == 0 /\
      loop_body pot dt s
      = Returned (record_sample pot dt s
                    (kick_drift_kick pot dt (particle s)))).
Proof.
  destruct (Qeq_dec (mass (particle s)) 0) as [Hm | Hm].
  - left. split; [assumption | now apply loop_body_zero].
  - right. split; [assumption | now apply loop_body_nonzero].
Qed.

Lemma loop_body_returned (s s' : Locals) :
  loop_body pot dt s = Returned s' ->
  ~ mass (particle s) == 0 /\
  s' = record_sample pot dt s (kick_drift_kick pot dt (particle s)).
Proof.
  intro Hs.
  destruct (loop_body_cases s) as [[_ Hz] | [Hm Hr]]; [congruence|].
  split; [assumption | congruence].
Qed.

Lemma loop_body_never_out_of_fuel (s : Locals) :
  loop_body pot dt s <> OutOfFuel.
Proof.
  destruct (loop_body_cases s) as [[_ Hz] | [_ Hr]]; congruence.
Qed.

Lemma aligned_record_sample (s : Locals) (p : Particle1D) :
  aligned s -> aligned (record_sample pot dt s p).
Proof.
  intros [Hn Hx Hv Hk Hp Ht _ _ _].
  constructor; cbn [record_sample l_times l_positions l_velocities ke pe
                    total_e time particle];
    rewrite ?length_app, ?last_last; cbn [length]; try reflexivity; lia.
Qed.

Lemma aligned_initial (p : Particle1D) : aligned (initial pot p).
Proof. constructor; cbn; try reflexivity; lia. Qed.
End LoopBody.

(** ** The while loop *)

Section WhileLoop.
Context {P : Type} `{Potential P}.
Variable pot : P.
Variable duration : Q.
Variable dt : Q.

Lemma while_loop_exit (fuel : nat) (s : Locals) :
  duration <= time s -> while_loop pot duration dt fuel s = Returned s.
Proof.
  intro Hd. apply Qltb_ge in Hd.
  destruct fuel; cbn [while_loop]; now rewrite Hd.
Qed.

Lemma while_loop_enter (fuel : nat) (s : Locals) :
  time s < duration ->
  while_loop pot duration dt (S fuel) s
  = (s' <- loop_body pot dt s ;; while_loop pot duration dt fuel s').
Proof.
  intro Hd. apply Qltb_lt in Hd. cbn [while_loop]. now rewrite Hd.
Qed.

Lemma while_loop_starved (s : Locals) :
  time s < duration -> while_loop pot duration dt 0 s = OutOfFuel.
Proof.
  intro Hd. apply Qltb_lt in Hd. cbn [while_loop]. now rewrite Hd.
Qed.

(** The rule of the while loop: an invariant of the body holds at the exit,
    where the guard is false. *)
Lemma while_loop_rule (I : Locals -> Prop) :
  (forall s1 s2, I s1 -> time s1 < duration ->
                 loop_body pot dt s1 = Returned s2 -> I s2) ->
  forall fuel s s',
    I s -> while_loop pot duration dt fuel s = Returned s' ->
    I s' /\ duration <= time s'.
Proof.
  intros Hbody fuel.
  induction fuel as [|fuel IH]; intros s s' Hs Hrun;
    destruct (Qlt_le_dec (time s) duration) as [Hlt | Hge].
  - rewrite (while_loop_starved _ Hlt) in Hrun. discriminate.
  - rewrite (while_loop_exit _ _ Hge) in Hrun.
    injection Hrun as <-. now split.
  - rewrite (while_loop_enter _ _ Hlt) in Hrun.
    destruct (loop_body pot dt s) as [s1 | e |] eqn:Hstep;
      cbn [bind] in Hrun; try discriminate.
    apply (IH s1 s'); [|assumption].
    now apply (Hbody s s1).
  - rewrite (while_loop_exit _ _ Hge) in Hrun.
    injection Hrun as <-. now split.
Qed.

(** More fuel does not change an outcome that was reached. *)
Lemma while_loop_more_fuel (fuel fuel' : nat) (s : Locals) :
  (fuel <= fuel')%nat ->
  while_loop pot duration dt fuel s <> OutOfFuel ->
  while_loop pot duration dt fuel' s = while_loop pot duration dt fuel s.
Proof.
  revert fuel' s.
  induction fuel as [|fuel IH]; intros fuel' s Hle Hrun;
    destruct (Qlt_le_dec (time s) duration) as [Hlt | Hge];
    try (now rewrite !(while_loop_exit _ _ Hge)).
  - now rewrite (while_loop_starved _ Hlt) in Hrun.
  - destruct fuel' as [|fuel']; [lia|].
    rewrite (while_loop_enter fuel _ Hlt) in Hrun.
    rewrite (while_loop_enter fuel _ Hlt), (while_loop_enter fuel' _ Hlt).
    destruct (loop_body pot dt s) as [s1 | e |]; cbn [bind] in Hrun |- *;
      try reflexivity.
    apply IH; [lia | assumption].
Qed.



(** A step that is not positive never brings the time to a later
    [duration]. *)
Lemma while_loop_diverges (fuel : nat) :
  dt <= 0 ->
  forall s,
    time s < duration -> ~ mass (particle s) == 0 ->
    while_loop pot duration dt fuel s = OutOfFuel.
Proof.
  intro Hdt.
  induction fuel as [|fuel IH]; intros s Hlt Hm.
  - now apply while_loop_starved.
  - rewrite (while_loop_enter _ _ Hlt), (loop_body_nonzero _ _ _ Hm).
    cbn [bind]. apply IH; [cbn [record_sample time]; lra | assumption].
Qed.

(** A massless particle fails in the first iteration. *)
Lemma while_loop_zero_mass (fuel : nat) (s : Locals) :
  time s < duration -> mass (particle s) == 0 ->
  while_loop pot duration dt (S fuel) s = Raised ZeroDivisionError.
Proof.
  intros Hlt Hm.
  now rewrite (while_loop_enter _ _ Hlt), (loop_body_zero _ _ _ Hm).
Qed.

End WhileLoop.

(** Entries of an array after an [append], by the length of the array. *)
Lemma nth_snoc_at {A : Type} (l : list A) (x d : A) (n : nat) :
  length l = n -> nth n (l ++ [x]) d = x.
Proof. intros <-. apply nth_snoc_new. Qed.

Lemma nth_snoc_before {A : Type} (l : list A) (x d : A) (n i : nat) :
  length l = n -> (i < n)%nat -> nth i (l ++ [x]) d = nth i l d.
Proof. intros <- Hi. now apply nth_snoc_old. Qed.

Lemma nth_snoc_last {A : Type} (l : list A) (x d : A) (n : nat) :
  length l = n -> (0 < n)%nat -> nth (n - 1) (l ++ [x]) d = last l d.
Proof.
  intros <- Hn. rewrite nth_snoc_old by lia. symmetry. apply last_as_nth.
Qed.

(** ** Invariants of a run *)

Section Run.
Context {P : Type} `{Potential P}.
Variable pot : P.
Variable duration : Q.
Variable dt : Q.

Lemma simulate_particle_returned (fuel : nat) (p p' : Particle1D)
    (tr : Trajectory) :
  simulate_particle pot duration dt fuel p = Returned (p', tr) ->
  exists s, while_loop pot duration dt fuel (initial pot p) = Returned s
            /\ result s = (p', tr).
Proof.
  unfold simulate_particle. intro Hrun.
  destruct (while_loop pot duration dt fuel (initial pot p)) as [s | e |];
    cbn [bind] in Hrun; try discriminate.
  exists s. split; [reflexivity | congruence].
Qed.

Lemma trace_inv_initial (p : Particle1D) : trace_inv pot dt p (initial pot p).
Proof.
  constructor; try reflexivity.
  - apply aligned_initial.
  - cbn. intros i Hi. lia.
Qed.

Lemma trace_inv_step (p : Particle1D) (s : Locals) :
  trace_inv pot dt p s ->
  trace_inv pot dt p (record_sample pot dt s (kick_drift_kick pot dt (particle s))).
Proof.
  intros [Hal Hm Ht0 Hx0 Hv0 Hver].
  pose proof Hal as [Hn Hx Hv _ _ _ Hlt Hlx Hlv].
  constructor.
  - now apply aligned_record_sample.
  - exact Hm.
  - cbn [record_sample l_times]. now rewrite nth_snoc_old.
  - cbn [record_sample l_positions]. rewrite nth_snoc_old; [assumption | lia].
  - cbn [record_sample l_velocities]. rewrite nth_snoc_old; [assumption | lia].
  - cbn [record_sample l_times l_positions l_velocities].
    rewrite length_app. cbn [length]. intros i Hi.
    destruct (Nat.eq_dec i (length (l_times s))) as [-> | Hne].
    + unfold verlet_at.
      rewrite !(nth_snoc_at (l_times s) _ _ _ eq_refl),
        !(nth_snoc_at (l_positions s) _ _ _ Hx),
        !(nth_snoc_at (l_velocities s) _ _ _ Hv).
      rewrite !(nth_snoc_last (l_times s) _ _ _ eq_refl Hn),
        !(nth_snoc_last (l_positions s) _ _ _ Hx Hn),
        !(nth_snoc_last (l_velocities s) _ _ _ Hv Hn).
      rewrite Hlt, Hlx, Hlv, <- Hm.
      unfold kick_drift_kick. cbn [position velocity].
      repeat split; unfold Qdiv; ring.
    + assert (Hlo : (i < length (l_times s))%nat) by lia.
      assert (Hlo' : (i - 1 < length (l_times s))%nat) by lia.
      unfold verlet_at.
      rewrite !(nth_snoc_before (l_times s) _ _ _ _ eq_refl Hlo),
        !(nth_snoc_before (l_positions s) _ _ _ _ Hx Hlo),
        !(nth_snoc_before (l_velocities s) _ _ _ _ Hv Hlo),
        !(nth_snoc_before (l_times s) _ _ _ _ eq_refl Hlo'),
        !(nth_snoc_before (l_positions s) _ _ _ _ Hx Hlo'),
        !(nth_snoc_before (l_velocities s) _ _ _ _ Hv Hlo').
      apply Hver. lia.
Qed.

Lemma trace_inv_body (p : Particle1D) (s1 s2 : Locals) :
  trace_inv pot dt p s1 -> time s1 < duration ->
  loop_body pot dt s1 = Returned s2 -> trace_inv pot dt p s2.
Proof.
  intros Hinv _ Hstep.
  apply loop_body_returned in Hstep as [_ ->].
  now apply trace_inv_step.
Qed.

(** The rule of the loop, for a whole run. *)
Lemma simulate_particle_rule (I : Locals -> Prop) (fuel : nat)
    (p p' : Particle1D) (tr : Trajectory) :
  I (initial pot p) ->
  (forall s1 s2, I s1 -> time s1 < duration ->
                 loop_body pot dt s1 = Returned s2 -> I s2) ->
  simulate_particle pot duration dt fuel p = Returned (p', tr) ->
  exists s, result s = (p', tr) /\ I s /\ duration <= time s.
Proof.
  intros Hinit Hbody Hrun.
  apply simulate_particle_returned in Hrun as (s & Hloop & Hres).
  exists s. split; [assumption|].
  now apply (while_loop_rule pot duration dt I Hbody fuel (initial pot p) s).
Qed.

Lemma simulate_particle_trace (fuel : nat) (p p' : Particle1D)
    (tr : Trajectory) :
  simulate_particle pot duration dt fuel p = Returned (p', tr) ->
  exists s, result s = (p', tr) /\ trace_inv pot dt p s /\ duration <= time s.
Proof.
  apply simulate_particle_rule; [apply trace_inv_initial|].
  apply trace_inv_body.
Qed.
End Run.

(** ** Counting the samples *)

Section Count.
Context {P : Type} `{Potential P}.
Variable pot : P.
Variable duration : Q.
Variable dt : Q.

Lemma count_inv_initial (p : Particle1D) : count_inv duration dt (initial pot p).
Proof.
  constructor; cbn [initial time l_times length].
  - change (inject_Z (Z.of_nat 1)) with 1. ring.
  - now left.
Qed.

Lemma count_inv_body (s1 s2 : Locals) :
  count_inv duration dt s1 -> time s1 < duration ->
  loop_body pot dt s1 = Returned s2 -> count_inv duration dt s2.
Proof.
  intros [Ht _] Hlt Hstep.
  apply loop_body_returned in Hstep as [_ ->].
  constructor; cbn [record_sample time l_times].
  - rewrite length_app. cbn [length].
    rewrite Nat2Z.inj_add, inject_Z_plus.
    change (inject_Z (Z.of_nat 1)) with 1. lra.
  - right. lra.
Qed.

Lemma count_at_exit (s : Locals) :
  0 < dt -> 0 < duration -> count_inv duration dt s -> duration <= time s ->
  Z.of_nat (length (l_times s)) = (Qceiling (duration / dt) + 1)%Z.
Proof.
  intros Hdt Hdur [Ht Hg] Hexit.
  set (n := Z.of_nat (length (l_times s))) in *.
  assert (Hprev : time s - dt < duration).
  { destruct Hg as [Hone | Hg]; [|assumption].
    subst n. rewrite Hone in Ht. change (inject_Z (Z.of_nat 1)) with 1 in Ht.
    lra. }
  assert (Hc : Qceiling (duration / dt) = (n - 1)%Z).
  { apply Qceiling_unique.
    - apply Qlt_shift_div_l; [assumption|].
      unfold Z.sub. rewrite inject_Z_plus.
      change (inject_Z (- (1))) with (- (1)). nra.
    - apply Qle_shift_div_r; [assumption|].
      unfold Z.sub. rewrite inject_Z_plus.
      change (inject_Z (- (1))) with (- (1)). nra. }
  lia.
Qed.
End Count.

(** ** The free particle *)

Section Free.
Variable duration : Q.
Variable dt : Q.

Lemma free_inv_initial (p : Particle1D) :
  free_inv p (initial NoPotential_init p).
Proof.
  constructor; cbn [initial particle time l_times l_positions l_velocities].
  - reflexivity.
  - ring.
  - cbn [length]. intros i Hi. assert (i = 0%nat) as -> by lia.
    cbn [nth]. split; [ring | reflexivity].
Qed.

Lemma free_inv_body (p : Particle1D) (s1 s2 : Locals) :
  aligned s1 /\ free_inv p s1 -> time s1 < duration ->
  loop_body NoPotential_init dt s1 = Returned s2 ->
  aligned s2 /\ free_inv p s2.
Proof.
  intros [Hal [Hv Hx Hs]] _ Hstep.
  apply loop_body_returned in Hstep as [_ ->].
  split; [now apply aligned_record_sample|].
  pose proof Hal as [Hn Hlx Hlv _ _ _ _ _ _].
  assert (Hv' : velocity (kick_drift_kick NoPotential_init dt (particle s1))
                == velocity p).
  { unfold kick_drift_kick. cbn [velocity force NoPotential_Potential].
    rewrite <- Hv. unfold Qdiv. ring. }
  assert (Hx' : position (kick_drift_kick NoPotential_init dt (particle s1))
                == position p + velocity p * (time s1 + dt)).
  { unfold kick_drift_kick. cbn [position force NoPotential_Potential].
    rewrite Hx, <- Hv. unfold Qdiv. ring. }
  constructor; cbn [record_sample particle time l_times l_positions
                    l_velocities]; try assumption.
  rewrite length_app. cbn [length]. intros i Hi.
  destruct (Nat.eq_dec i (length (l_times s1))) as [-> | Hne].
  - rewrite (nth_snoc_at (l_times s1) _ _ _ eq_refl),
      (nth_snoc_at (l_positions s1) _ _ _ Hlx),
      (nth_snoc_at (l_velocities s1) _ _ _ Hlv).
    now split.
  - assert (Hlo : (i < length (l_times s1))%nat) by lia.
    rewrite (nth_snoc_before (l_times s1) _ _ _ _ eq_refl Hlo),
      (nth_snoc_before (l_positions s1) _ _ _ _ Hlx Hlo),
      (nth_snoc_before (l_velocities s1) _ _ _ _ Hlv Hlo).
    now apply Hs.
Qed.
End Free.

(** ** The properties of [simulate_particle] *)

(** C2: every sample after the first follows from the sample before it by
    the kick-drift-kick equations of velocity Verlet: with
    [v_half = velocities[i-1] + (dt/2) * force(positions[i-1]) / m],
    [positions[i] = positions[i-1] + dt * v_half],
    [velocities[i] = v_half + (dt/2) * force(positions[i]) / m] and
    [times[i] = times[i-1] + dt], for every potential and every particle
    for which the run returns (its mass is then not zero as soon as one
    step was taken). *)
Theorem velocity_verlet_samples {P : Type} `{Potential P} (pot : P)
    (duration dt : Q) (fuel : nat) (p p' : Particle1D) (tr : Trajectory)
    (i : nat) :
  simulate_particle pot duration dt fuel p = Returned (p', tr) ->
  (1 <= i < length (times tr))%nat ->
  let m := mass p in
  let v_half :=
    nth (i - 1) (velocities tr) 0
    + (dt / 2) * force pot (nth (i - 1) (positions tr) 0) / m in
  nth i (positions tr) 0 == nth (i - 1) (positions tr) 0 + dt * v_half /\
  nth i (velocities tr) 0
  == v_half + (dt / 2) * force pot (nth i (positions tr) 0) / m /\
  nth i (times tr) 0 == nth (i - 1) (times tr) 0 + dt.
Proof.
  intros Hrun Hi.
  apply simulate_particle_trace in Hrun as (s & Hres & Hinv & _).
  injection Hres as _ <-.
  apply (ti_verlet _ _ _ _ Hinv i Hi).
Qed.

Lemma velocity_verlet_samples_witness :
  exists p' tr,
    simulate_particle (Harmonic.init 1 0) (1 # 2) (1 # 4) 2 particle_at_rest
    = Returned (p', tr)
    /\ (1 <= 2 < length (times tr))%nat
    /\ nth 2 (positions tr) 0
       == nth 1 (positions tr) 0
          + (1 # 4) * (nth 1 (velocities tr) 0
                       + ((1 # 4) / 2)
                         * force (Harmonic.init 1 0) (nth 1 (positions tr) 0)
                         / 1).
Proof.
  assert (Hrun : { r | simulate_particle (Harmonic.init 1 0) (1 # 2) (1 # 4) 2
                         particle_at_rest = Returned r }).
  { eexists. vm_compute. reflexivity. }
  destruct Hrun as [[p' tr] Hrun].
  exists p', tr.
  split; [exact Hrun|].
  assert (Hlen : length (times tr) = 3%nat).
  { vm_compute in Hrun. injection Hrun as _ <-. reflexivity. }
  split; [lia|].
  apply (velocity_verlet_samples _ _ _ _ _ _ _ 2 Hrun). lia.
Defined.

Lemma nonpositive_duration_sample {P : Type} `{Potential P} (pot : P)
    (duration dt : Q) (fuel : nat) (p : Particle1D) :
  duration <= 0 ->
  simulate_particle pot duration dt fuel p
  = Returned (p, initial_sample pot p).
Proof.
  intro Hd. unfold simulate_particle.
  rewrite while_loop_exit by exact Hd.
  reflexivity.
Qed.



(** C10: [simulate_particle] works on the caller's particle.  When it
    returns, the position and the velocity of the particle are the last
    entries of the returned [positions] and [velocities], and its mass is
    the mass it had on entry. *)
Theorem particle_mutated_in_place {P : Type} `{Potential P} (pot : P)
    (duration dt : Q) (fuel : nat) (p p' : Particle1D) (tr : Trajectory) :
  simulate_particle pot duration dt fuel p = Returned (p', tr) ->
  position p' = last (positions tr) 0 /\
  velocity p' = last (velocities tr) 0 /\
  mass p' = mass p.
Proof.
  intro Hrun.
  apply simulate_particle_trace in Hrun as (s & Hres & Hinv & _).
  injection Hres as <- <-.
  destruct Hinv as [[_ _ _ _ _ _ _ Hx Hv] Hm _ _ _ _].
  cbn [positions velocities]. now rewrite Hx, Hv.
Qed.

Lemma particle_mutated_in_place_witness :
  exists p' tr,
    simulate_particle (Quartic.init 1 0) (1 # 2) (1 # 4) 2 particle_moving
    = Returned (p', tr)
    /\ position p' = last (positions tr) 0
    /\ velocity p' = last (velocities tr) 0
    /\ mass p' = 2.
Proof.
  assert (Hrun : { r | simulate_particle (Quartic.init 1 0) (1 # 2) (1 # 4) 2
                         particle_moving = Returned r }).
  { eexists. vm_compute. reflexivity. }
  destruct Hrun as [[p' tr] Hrun].
  exists p', tr.
  split; [exact Hrun|].
  exact (particle_mutated_in_place _ _ _ _ _ _ _ Hrun).
Defined.



(** C4: with [NoPotential] every sample satisfies
    [positions[i] = positions[0] + velocities[0] * times[i]] and
    [velocities[i] = velocities[0]], whatever the initial state, the mass,
    the step and the duration of a run that returns. *)
Theorem free_particle_exact (duration dt : Q) (fuel : nat)
    (p p' : Particle1D) (tr : Trajectory) (i : nat) :
  simulate_particle NoPotential_init duration dt fuel p = Returned (p', tr) ->
  (i < length (times tr))%nat ->
  nth i (positions tr) 0
  == nth 0 (positions tr) 0 + nth 0 (velocities tr) 0 * nth i (times tr) 0
  /\ nth i (velocities tr) 0 == nth 0 (velocities tr) 0.
Proof.
  intros Hrun Hi.
  apply (simulate_particle_rule NoPotential_init duration dt
           (fun s => trace_inv NoPotential_init dt p s /\ free_inv p s))
    in Hrun as (s & Hres & [Htr Hfree] & _).
  - injection Hres as _ <-. cbn [positions velocities times] in Hi |- *.
    rewrite (ti_first_position _ _ _ _ Htr), (ti_first_velocity _ _ _ _ Htr).
    now apply (fi_samples _ _ Hfree).
  - split; [apply trace_inv_initial | apply free_inv_initial].
  - intros s1 s2 [Htr Hfree] Hlt Hstep. split.
    + now apply (trace_inv_body NoPotential_init duration dt p s1 s2).
    + apply (free_inv_body duration dt p s1 s2); try assumption.
      split; [apply (ti_aligned _ _ _ _ Htr) | assumption].
Qed.

Lemma free_particle_exact_witness :
  exists p' tr,
    simulate_particle NoPotential_init 1 (1 # 4) 4 particle_moving
    = Returned (p', tr)
    /\ length (times tr) = 5%nat
    /\ nth 4 (positions tr) 0 == 1 + 3 * nth 4 (times tr) 0
    /\ nth 4 (velocities tr) 0 == 3.
Proof.
  assert (Hrun : { r | simulate_particle NoPotential_init 1 (1 # 4) 4
                         particle_moving = Returned r }).
  { eexists. vm_compute. reflexivity. }
  destruct Hrun as [[p' tr] Hrun].
  exists p', tr.
  split; [exact Hrun|].
  assert (Hfacts : length (times tr) = 5%nat
                   /\ nth 0 (positions tr) 0 = 1
                   /\ nth 0 (velocities tr) 0 = 3).
  { vm_compute in Hrun. injection Hrun as _ <-. repeat split. }
  destruct Hfacts as (Hlen & Hx0 & Hv0).
  split; [exact Hlen|].
  rewrite <- Hx0, <- Hv0.
  apply (free_particle_exact 1 (1 # 4) 4 particle_moving p' tr 4 Hrun).
  lia.
Defined.






(** ** The potentials *)

(** C9: the harmonic and the quartic potential are even about their
    centre and their forces are odd: at [center + d] and [center - d] the
    potential energy is the same and the forces are opposite, for every
    [k], [a], [center] and [d]. *)
Theorem harmonic_quartic_symmetry (k a c d : Q) :
  (call (Harmonic.init k c) (c + d) == call (Harmonic.init k c) (c - d)
   /\ force (Harmonic.init k c) (c + d)
      == - force (Harmonic.init k c) (c - d))
  /\ (call (Quartic.init a c) (c + d) == call (Quartic.init a c) (c - d)
      /\ force (Quartic.init a c) (c + d)
         == - force (Quartic.init a c) (c - d)).
Proof.
  cbn [call force HarmonicPotential_Potential QuarticPotential_Potential].
  unfold Harmonic.call, Harmonic.force, Quartic.call, Quartic.force.
  cbn [Harmonic.k Harmonic.center Quartic.a Quartic.center].
  repeat split; ring.
Qed.

Lemma box_inside (w c s x : Q) :
  Qabs (x - c) <= w / 2 ->
  call (Box.init w c s) x = 0 /\ force (Box.init w c s) x = 0.
Proof.
  intro Hin. apply Qle_bool_iff in Hin.
  cbn [call force BoxPotential_Potential].
  unfold Box.call, Box.force. cbn [Box.init Box.center Box.half_width].
  now rewrite Hin.
Qed.

Lemma box_outside (w c s x : Q) :
  w / 2 < Qabs (x - c) ->
  call (Box.init w c s) x = (1 # 2) * s * (Qabs (x - c) - w / 2) ^ 2
  /\ force (Box.init w c s) x
     = - sign (x - c) * s * (Qabs (x - c) - w / 2).
Proof.
  intro Hout. apply Qle_bool_false in Hout.
  cbn [call force BoxPotential_Potential].
  unfold Box.call, Box.force.
  cbn [Box.init Box.center Box.half_width Box.wall_stiffness].
  now rewrite Hout.
Qed.

Lemma sign_positive (x : Q) : 0 < x -> sign x = 1.
Proof.
  intro Hx. unfold sign. now rewrite (proj1 (Qgt_alt x 0) Hx).
Qed.

Lemma sign_negative (x : Q) : x < 0 -> sign x = - (1).
Proof.
  intro Hx. unfold sign. now rewrite (proj1 (Qlt_alt x 0) Hx).
Qed.

(** C6, as the code has it: inside the box, the boundary points
    [center + width/2] and [center - width/2] included, the potential energy
    and the force are exactly 0.  Outside, the potential energy is strictly
    positive and the force pushes back towards the box with magnitude
    [wall_stiffness * overshoot]: it is strictly negative to the right of
    the box and strictly positive to the left of it. *)
Theorem box_zero_inside_restoring_outside (w c s x : Q) :
  0 < w -> 0 < s ->
  (Qabs (x - c) <= w / 2 ->
   call (Box.init w c s) x = 0 /\ force (Box.init w c s) x = 0)
  /\ (call (Box.init w c s) (c + w / 2) = 0
      /\ force (Box.init w c s) (c + w / 2) = 0
      /\ call (Box.init w c s) (c - w / 2) = 0
      /\ force (Box.init w c s) (c - w / 2) = 0)
  /\ (w / 2 < Qabs (x - c) ->
      0 < call (Box.init w c s) x
      /\ (c + w / 2 < x ->
          force (Box.init w c s) x == - (s * (x - c - w / 2))
          /\ force (Box.init w c s) x < 0)
      /\ (x < c - w / 2 ->
          force (Box.init w c s) x == s * (c - x - w / 2)
          /\ 0 < force (Box.init w c s) x)).
Proof.
  intros Hw Hs. split; [apply box_inside |].
  assert (Hh : 0 < w / 2) by (apply Qlt_shift_div_l; lra).
  revert Hh. generalize (box_inside w c s) (box_outside w c s).
  generalize (w / 2). intros h box_in box_out Hh.
  split.
  - assert (Hr : Qabs (c + h - c) <= h).
    { apply Qabs_Qle_condition. lra. }
    assert (Hl : Qabs (c - h - c) <= h).
    { apply Qabs_Qle_condition. lra. }
    destruct (box_in _ Hr), (box_in _ Hl).
    now repeat split.
  - intro Hout. destruct (box_out x Hout) as [-> ->].
    split; [|split].
    + assert (Hov : 0 < Qabs (x - c) - h) by lra.
      revert Hov. generalize (Qabs (x - c) - h). intros o Hov.
      change (o ^ 2) with (o * o).
      repeat apply Qmult_lt_0_compat; lra.
    + intro Hright.
      rewrite sign_positive by lra.
      rewrite (Qabs_pos (x - c)) by lra.
      split; [ring | nra].
    + intro Hleft.
      rewrite sign_negative by lra.
      rewrite (Qabs_neg (x - c)) by lra.
      split; [ring | nra].
Qed.

Lemma box_zero_inside_restoring_outside_witness :
  call (Box.init 2 0 1000) 1 = 0
  /\ force (Box.init 2 0 1000) 1 = 0
  /\ 0 < call (Box.init 2 0 1000) (3 # 2)
  /\ force (Box.init 2 0 1000) (3 # 2) < 0
  /\ 0 < force (Box.init 2 0 1000) (- (3 # 2)).
Proof.
  assert (Hw : 0 < 2) by reflexivity.
  assert (Hs : 0 < 1000) by reflexivity.
  destruct (box_zero_inside_restoring_outside 2 0 1000 1 Hw Hs)
    as (Hin & _ & _).
  destruct (box_zero_inside_restoring_outside 2 0 1000 (3 # 2) Hw Hs)
    as (_ & _ & Hright).
  destruct (box_zero_inside_restoring_outside 2 0 1000 (- (3 # 2)) Hw Hs)
    as (_ & _ & Hleft).
  destruct Hin as [Hc Hf]; [vm_compute; discriminate|].
  destruct Hright as (Hpos & Hr & _); [reflexivity|].
  destruct Hleft as (_ & _ & Hl); [reflexivity|].
  destruct Hr as [_ Hr]; [reflexivity|].
  destruct Hl as [_ Hl]; [reflexivity|].
  repeat split; assumption.
Defined.

(** C6 as it is stated fails for the force: right of the box, at
    [x = 2] for the box of width 2 about 0 with stiffness 1000, the point is
    outside and the force is [-1000], which is not strictly positive. *)
Lemma box_force_not_positive_outside :
  (0 < 2 /\ 0 < 1000 /\ 2 / 2 < Qabs (2 - 0))
  /\ force (Box.init 2 0 1000) 2 == - (1000)
  /\ ~ 0 < force (Box.init 2 0 1000) 2.
Proof.
  split; [repeat split|split].
  - vm_compute. reflexivity.
  - vm_compute. discriminate.
Qed.

(** ** Configurations that the specification calls invalid *)





(** ** Energy of the harmonic oscillator under velocity Verlet *)

Lemma shadow_energy_step (k c dt : Q) (p : Particle1D) :
  ~ mass p == 0 ->
  shadow_energy k c dt (kick_drift_kick (Harmonic.init k c) dt p)
  == shadow_energy k c dt p.
Proof.
  intro Hm. unfold shadow_energy, kick_drift_kick.
  cbn [position velocity mass force HarmonicPotential_Potential].
  unfold Harmonic.force. cbn [Harmonic.k Harmonic.center].
  field. exact Hm.
Qed.

Lemma Qsquare_nonneg (x : Q) : 0 <= x ^ 2.
Proof. change (x ^ 2) with (x * x). nra. Qed.

(** Two states of equal shadow energy: kinetic parts [T], [T0], potential
    parts [K], [K0], and [A], [B] the parts of [K], [K0] that the shadow
    energy leaves out. *)
Lemma energy_gap (T K T0 K0 A B : Q) :
  0 <= T -> 0 <= K0 -> 0 <= T0 ->
  0 <= A -> 101 * A <= K -> 0 <= B -> 101 * B <= K0 ->
  T + K - A == T0 + K0 - B ->
  Qabs ((T + K) - (T0 + K0)) <= (1 # 100) * (T0 + K0).
Proof.
  intros. apply Qabs_Qle_condition. split; lra.
Qed.

Lemma energy_gap_strict (T K T0 K0 A B : Q) :
  0 <= T -> 0 <= K -> 0 <= K0 -> 0 <= T0 ->
  0 <= A -> 101 * A <= K -> (0 < K -> 101 * A < K) ->
  0 <= B -> 101 * B <= K0 ->
  T + K - A == T0 + K0 - B ->
  0 < T0 + K0 ->
  Qabs ((T + K) - (T0 + K0)) < (1 # 100) * (T0 + K0).
Proof.
  intros HT HK HK0 HT0 HA HAK HAK' HB HBK Heq Hpos.
  apply Qabs_Qlt_condition.
  destruct (Qlt_le_dec 0 K) as [HKpos | HKzero].
  - specialize (HAK' HKpos). split; lra.
  - split; lra.
Qed.

(** A state with the shadow energy of [p0] has its energy within one
    percent of the energy of [p0], as soon as [101 k dt^2 < 4 m]. *)
Lemma harmonic_energy_close (k c dt : Q) (p0 p : Particle1D) :
  0 < k -> 0 < mass p0 -> 101 * k * dt ^ 2 < 4 * mass p0 ->
  mass p = mass p0 ->
  shadow_energy k c dt p == shadow_energy k c dt p0 ->
  Qabs (total_energy (Harmonic.init k c) p
        - total_energy (Harmonic.init k c) p0)
  <= (1 # 100) * total_energy (Harmonic.init k c) p0
  /\ (0 < total_energy (Harmonic.init k c) p0 ->
      Qabs (total_energy (Harmonic.init k c) p
            - total_energy (Harmonic.init k c) p0)
      < (1 # 100) * total_energy (Harmonic.init k c) p0).
Proof.
  intros Hk Hm Hdt Hmass Hshadow.
  unfold shadow_energy in Hshadow. rewrite Hmass in Hshadow.
  unfold total_energy. cbn [call HarmonicPotential_Potential].
  unfold Harmonic.call. cbn [Harmonic.k Harmonic.center]. rewrite Hmass.
  set (m := mass p0) in *.
  set (eps := k * dt ^ 2 / (4 * m)) in *.
  assert (Heps0 : 0 <= eps).
  { unfold eps. apply Qle_shift_div_l; [lra|].
    pose proof (Qsquare_nonneg dt). nra. }
  assert (Heps1 : 101 * eps < 1).
  { assert (eps < 1 # 101); [|lra].
    unfold eps. apply Qlt_shift_div_r; lra. }
  pose proof (Qsquare_nonneg (velocity p)) as Hv.
  pose proof (Qsquare_nonneg (velocity p0)) as Hv0.
  pose proof (Qsquare_nonneg (position p - c)) as Hu.
  pose proof (Qsquare_nonneg (position p0 - c)) as Hu0.
  revert Hshadow Hv Hv0 Hu Hu0.
  generalize (velocity p ^ 2), (velocity p0 ^ 2),
    ((position p - c) ^ 2), ((position p0 - c) ^ 2).
  intros v2 v02 u2 u02 Hshadow Hv Hv0 Hu Hu0.
  set (T := (1 # 2) * m * v2). set (T0 := (1 # 2) * m * v02).
  set (K := (1 # 2) * k * u2). set (K0 := (1 # 2) * k * u02).
  assert (HT : 0 <= T) by (unfold T; nra).
  assert (HT0 : 0 <= T0) by (unfold T0; nra).
  assert (HK : 0 <= K) by (unfold K; nra).
  assert (HK0 : 0 <= K0) by (unfold K0; nra).
  assert (Heq : T + K - eps * K == T0 + K0 - eps * K0).
  { unfold T, K, T0, K0. lra. }
  clearbody T T0 K K0. clear Hshadow.
  assert (HA : 0 <= eps * K) by nra.
  assert (HB : 0 <= eps * K0) by nra.
  assert (HAK : 101 * (eps * K) <= K) by nra.
  assert (HBK : 101 * (eps * K0) <= K0) by nra.
  assert (HAK' : 0 < K -> 101 * (eps * K) < K) by (intro; nra).
  split.
  - now apply (energy_gap T K T0 K0 (eps * K) (eps * K0)).
  - intro Hpos.
    now apply (energy_gap_strict T K T0 K0 (eps * K) (eps * K0)).
Qed.

Section HarmonicEnergy.
Variable k : Q.
Variable c : Q.
Variable duration : Q.
Variable dt : Q.
Variable p : Particle1D.

Hypothesis k_positive : 0 < k.
Hypothesis mass_positive : 0 < mass p.
Hypothesis dt_small : 101 * k * dt ^ 2 < 4 * mass p.

Lemma energy_inv_initial : energy_inv k c dt p (initial (Harmonic.init k c) p).
Proof.
  constructor; cbn [initial particle total_e length]; try reflexivity.
  - lia.
  - intros i Hi. assert (i = 0%nat) as -> by lia.
    cbn [nth].
    apply (harmonic_energy_close k c dt p p); try assumption; reflexivity.
Qed.

Lemma energy_inv_body (s1 s2 : Locals) :
  energy_inv k c dt p s1 -> time s1 < duration ->
  loop_body (Harmonic.init k c) dt s1 = Returned s2 -> energy_inv k c dt p s2.
Proof.
  intros [Hmass Hshadow Hpos Hfirst Hsamples] _ Hstep.
  apply loop_body_returned in Hstep as [Hnz ->].
  assert (Hshadow' :
            shadow_energy k c dt
              (kick_drift_kick (Harmonic.init k c) dt (particle s1))
            == shadow_energy k c dt p).
  { now rewrite shadow_energy_step. }
  constructor; cbn [record_sample particle total_e].
  - exact Hmass.
  - exact Hshadow'.
  - rewrite length_app. lia.
  - rewrite nth_snoc_old; assumption.
  - rewrite length_app. cbn [length]. intros i Hi.
    destruct (Nat.eq_dec i (length (total_e s1))) as [-> | Hne].
    + rewrite nth_snoc_new.
      apply (harmonic_energy_close k c dt p
               (kick_drift_kick (Harmonic.init k c) dt (particle s1)));
        assumption.
    + rewrite nth_snoc_old by lia. apply Hsamples. lia.
Qed.
End HarmonicEnergy.

(** X1: for the harmonic potential with [k > 0], a particle of positive mass
    and a step with [101 k dt^2 < 4 m], every total energy that a run
    records is within one percent of the first one, strictly when that is
    positive, and so is the last one: the bound does not depend on the
    duration. *)
Theorem harmonic_energy_bounded (k c duration dt : Q) (fuel : nat)
    (p p' : Particle1D) (tr : Trajectory) :
  0 < k -> 0 < mass p -> 101 * k * dt ^ 2 < 4 * mass p ->
  simulate_particle (Harmonic.init k c) duration dt fuel p
  = Returned (p', tr) ->
  let E := total (energies tr) in
  (forall i, (i < length E)%nat ->
     Qabs (nth i E 0 - nth 0 E 0) <= (1 # 100) * nth 0 E 0
     /\ (0 < nth 0 E 0 ->
         Qabs (nth i E 0 - nth 0 E 0) < (1 # 100) * nth 0 E 0))
  /\ Qabs (last E 0 - nth 0 E 0) <= (1 # 100) * nth 0 E 0
  /\ (0 < nth 0 E 0 ->
      Qabs (last E 0 - nth 0 E 0) < (1 # 100) * nth 0 E 0).
Proof.
  intros Hk Hm Hdt Hrun.
  apply (simulate_particle_rule (Harmonic.init k c) duration dt
           (energy_inv k c dt p)) in Hrun
    as (s & Hres & [_ _ Hpos Hfirst Hsamples] & _).
  - injection Hres as _ <-. cbn [energies total]. cbn zeta.
    rewrite Hfirst.
    split; [exact Hsamples|].
    rewrite last_as_nth.
    assert (Hlast : (length (total_e s) - 1 < length (total_e s))%nat)
      by lia.
    destruct (Hsamples _ Hlast) as [Hle Hlt].
    now split.
  - now apply energy_inv_initial.
  - now apply energy_inv_body.
Qed.

Lemma harmonic_energy_bounded_witness :
  exists p' tr,
    simulate_particle (Harmonic.init 1 0) (1 # 5) (1 # 10) 2
      particle_at_rest
    = Returned (p', tr)
    /\ nth 0 (total (energies tr)) 0 == 1 # 2
    /\ Qabs (last (total (energies tr)) 0 - nth 0 (total (energies tr)) 0)
       < (1 # 100) * nth 0 (total (energies tr)) 0.
Proof.
  assert (Hrun : { r | simulate_particle (Harmonic.init 1 0) (1 # 5)
                         (1 # 10) 2 particle_at_rest = Returned r }).
  { eexists. vm_compute. reflexivity. }
  destruct Hrun as [[p' tr] Hrun].
  exists p', tr.
  split; [exact Hrun|].
  assert (Hfirst : nth 0 (total (energies tr)) 0 == 1 # 2).
  { vm_compute in Hrun. injection Hrun as _ <-. reflexivity. }
  split; [exact Hfirst|].
  assert (Hk : 0 < 1) by reflexivity.
  assert (Hm : 0 < mass particle_at_rest) by reflexivity.
  assert (Hdt : 101 * 1 * (1 # 10) ^ 2 < 4 * mass particle_at_rest)
    by reflexivity.
  destruct (harmonic_energy_bounded 1 0 (1 # 5) (1 # 10) 2 particle_at_rest
              p' tr
              Hk Hm Hdt Hrun) as (_ & _ & Hlt).
  apply Hlt. rewrite Hfirst. reflexivity.
Defined.

(** At rest at the centre of the harmonic potential the energy is zero
    at every sample, and no deviation is strictly below one percent of
    it. *)
Lemma rest_at_centre_energy_zero :
  exists p' tr,
    simulate_particle (Harmonic.init 1 0) 1 (1 # 4) 4
      (Particle1D_init 0 0 (Some 0) (Some 0) 1)
    = Returned (p', tr)
    /\ Forall (fun e => e == 0) (total (energies tr))
    /\ ~ Qabs (last (total (energies tr)) 0 - nth 0 (total (energies tr)) 0)
         < (1 # 100) * nth 0 (total (energies tr)) 0.
Proof.
  eexists _, _. split; [vm_compute; reflexivity|].
  split; [repeat constructor|].
  vm_compute. discriminate.
Qed.

(** * Further properties of the code *)

(** ** The energy record and the clock of [simulate_particle] *)

Section Records.
Context {P : Type} `{Potential P}.
Variable pot : P.
Variable duration : Q.
Variable dt : Q.

Lemma energy_record_inv_initial (p : Particle1D) :
  energy_record_inv pot (mass p) (initial pot p).
Proof.
  constructor; [apply aligned_initial | reflexivity |].
  cbn [initial l_times ke pe total_e l_velocities l_positions length].
  intros i Hi. assert (i = 0%nat) as -> by lia.
  cbn [nth]. repeat split.
Qed.

Lemma energy_record_inv_body (m : Q) (s1 s2 : Locals) :
  energy_record_inv pot m s1 -> time s1 < duration ->
  loop_body pot dt s1 = Returned s2 -> energy_record_inv pot m s2.
Proof.
  intros [Hal Hm Hs] _ Hstep.
  apply loop_body_returned in Hstep as [_ ->].
  pose proof Hal as [Hn Hx Hv Hk Hp Ht _ _ _].
  constructor; [now apply aligned_record_sample | exact Hm |].
  cbn [record_sample l_times l_positions l_velocities ke pe total_e].
  rewrite length_app. cbn [length]. intros i Hi.
  destruct (Nat.eq_dec i (length (l_times s1))) as [-> | Hne].
  - rewrite (nth_snoc_at (ke s1) _ _ _ Hk), (nth_snoc_at (pe s1) _ _ _ Hp),
      (nth_snoc_at (total_e s1) _ _ _ Ht),
      (nth_snoc_at (l_positions s1) _ _ _ Hx),
      (nth_snoc_at (l_velocities s1) _ _ _ Hv).
    cbn [kick_drift_kick mass]. rewrite Hm. repeat split.
  - assert (Hlo : (i < length (l_times s1))%nat) by lia.
    rewrite (nth_snoc_before (ke s1) _ _ _ _ Hk Hlo),
      (nth_snoc_before (pe s1) _ _ _ _ Hp Hlo),
      (nth_snoc_before (total_e s1) _ _ _ _ Ht Hlo),
      (nth_snoc_before (l_positions s1) _ _ _ _ Hx Hlo),
      (nth_snoc_before (l_velocities s1) _ _ _ _ Hv Hlo).
    now apply Hs.
Qed.

Lemma clock_inv_initial (p : Particle1D) : clock_inv dt (initial pot p).
Proof.
  constructor; cbn [initial time l_times length].
  - change (inject_Z (Z.of_nat 1)) with 1. ring.
  - intros i Hi. assert (i = 0%nat) as -> by lia.
    cbn [nth]. change (inject_Z (Z.of_nat 0)) with 0. ring.
Qed.

Lemma clock_inv_body (s1 s2 : Locals) :
  clock_inv dt s1 -> time s1 < duration ->
  loop_body pot dt s1 = Returned s2 -> clock_inv dt s2.
Proof.
  intros [Ht Hs] _ Hstep.
  apply loop_body_returned in Hstep as [_ ->].
  constructor; cbn [record_sample time l_times];
    rewrite length_app; cbn [length].
  - rewrite Nat2Z.inj_add, inject_Z_plus.
    change (inject_Z (Z.of_nat 1)) with 1. lra.
  - intros i Hi.
    destruct (Nat.eq_dec i (length (l_times s1))) as [-> | Hne].
    + rewrite nth_snoc_new. exact Ht.
    + rewrite nth_snoc_old by lia. apply Hs. lia.
Qed.
End Records.

(** X2: in a returned trajectory the three energy arrays describe the
    recorded states: at every index the kinetic energy is
    [0.5 * mass * velocities[i]^2], the potential energy is the potential at
    [positions[i]], and the total is their sum. *)
Theorem energy_record_consistent {P : Type} `{Potential P} (pot : P)
    (duration dt : Q) (fuel : nat) (p p' : Particle1D) (tr : Trajectory)
    (i : nat) :
  simulate_particle pot duration dt fuel p = Returned (p', tr) ->
  (i < length (times tr))%nat ->
  nth i (kinetic (energies tr)) 0
  = (1 # 2) * mass p * nth i (velocities tr) 0 ^ 2
  /\ nth i (potential (energies tr)) 0 = call pot (nth i (positions tr) 0)
  /\ nth i (total (energies tr)) 0
     = nth i (kinetic (energies tr)) 0 + nth i (potential (energies tr)) 0.
Proof.
  intros Hrun Hi.
  apply (simulate_particle_rule pot duration dt
           (energy_record_inv pot (mass p))) in Hrun
    as (s & Hres & [_ _ Hs] & _).
  - injection Hres as _ <-. now apply Hs.
  - apply energy_record_inv_initial.
  - apply energy_record_inv_body.
Qed.

Lemma energy_record_consistent_witness :
  exists p' tr,
    simulate_particle (Box.init 2 0 1000) (1 # 2) (1 # 4) 2 particle_moving
    = Returned (p', tr)
    /\ nth 2 (total (energies tr)) 0
       = nth 2 (kinetic (energies tr)) 0 + nth 2 (potential (energies tr)) 0.
Proof.
  assert (Hrun : { r | simulate_particle (Box.init 2 0 1000) (1 # 2) (1 # 4) 2
                         particle_moving = Returned r }).
  { eexists. vm_compute. reflexivity. }
  destruct Hrun as [[p' tr] Hrun].
  exists p', tr.
  split; [exact Hrun|].
  assert (Hlen : length (times tr) = 3%nat).
  { vm_compute in Hrun. injection Hrun as _ <-. reflexivity. }
  apply (energy_record_consistent _ _ _ _ _ _ _ 2 Hrun). lia.
Defined.

(** X3: the recorded times are the multiples of the step:
    [times[i] = i * dt] at every index, for every step and duration. *)
Theorem sample_times_multiples {P : Type} `{Potential P} (pot : P)
    (duration dt : Q) (fuel : nat) (p p' : Particle1D) (tr : Trajectory)
    (i : nat) :
  simulate_particle pot duration dt fuel p = Returned (p', tr) ->
  (i < length (times tr))%nat ->
  nth i (times tr) 0 == inject_Z (Z.of_nat i) * dt.
Proof.
  intros Hrun Hi.
  apply (simulate_particle_rule pot duration dt (clock_inv dt)) in Hrun
    as (s & Hres & [_ Hs] & _).
  - injection Hres as _ <-. now apply Hs.
  - apply clock_inv_initial.
  - apply clock_inv_body.
Qed.

Lemma sample_times_multiples_witness :
  exists p' tr,
    simulate_particle (Quartic.init 1 0) 1 (1 # 3) 3 particle_at_rest
    = Returned (p', tr)
    /\ nth 3 (times tr) 0 == 3 * (1 # 3).
Proof.
  assert (Hrun : { r | simulate_particle (Quartic.init 1 0) 1 (1 # 3) 3
                         particle_at_rest = Returned r }).
  { eexists. vm_compute. reflexivity. }
  destruct Hrun as [[p' tr] Hrun].
  exists p', tr.
  split; [exact Hrun|].
  assert (Hlen : length (times tr) = 4%nat).
  { vm_compute in Hrun. injection Hrun as _ <-. reflexivity. }
  apply (sample_times_multiples _ _ _ _ _ _ _ 3 Hrun). lia.
Defined.

(** X4: with a positive step and a positive duration the last recorded
    time is the first multiple of the step that reaches the duration: it is
    at least [duration] and less than [duration + dt]. *)
Theorem final_time_overshoot {P : Type} `{Potential P} (pot : P)
    (duration dt : Q) (fuel : nat) (p p' : Particle1D) (tr : Trajectory) :
  0 < dt -> 0 < duration ->
  simulate_particle pot duration dt fuel p = Returned (p', tr) ->
  duration <= last (times tr) 0 /\ last (times tr) 0 < duration + dt.
Proof.
  intros Hdt Hdur Hrun.
  apply (simulate_particle_rule pot duration dt
           (fun s => aligned s /\ count_inv duration dt s)) in Hrun
    as (s & Hres & [Hal [Ht Hg]] & Hexit).
  - injection Hres as _ <-. cbn [times].
    rewrite (al_time _ Hal). split; [assumption|].
    destruct Hg as [Hone | Hg]; [|lra].
    rewrite Hone in Ht. change (inject_Z (Z.of_nat 1)) with 1 in Ht. lra.
  - split; [apply aligned_initial | apply count_inv_initial].
  - intros s1 s2 [Hal Hcount] Hlt Hstep. split.
    + apply loop_body_returned in Hstep as [_ ->].
      now apply aligned_record_sample.
    + now apply (count_inv_body pot duration dt s1 s2).
Qed.

Lemma final_time_overshoot_witness :
  exists p' tr,
    simulate_particle (Harmonic.init 1 0) (1 # 2) (1 # 3) 2 particle_at_rest
    = Returned (p', tr)
    /\ (1 # 2) <= last (times tr) 0 /\ last (times tr) 0 < (1 # 2) + (1 # 3).
Proof.
  assert (Hrun : { r | simulate_particle (Harmonic.init 1 0) (1 # 2) (1 # 3) 2
                         particle_at_rest = Returned r }).
  { eexists. vm_compute. reflexivity. }
  destruct Hrun as [[p' tr] Hrun].
  exists p', tr.
  split; [exact Hrun|].
  assert (Hdt : 0 < 1 # 3) by reflexivity.
  assert (Hdur : 0 < 1 # 2) by reflexivity.
  apply (final_time_overshoot _ _ _ _ _ _ _ Hdt Hdur Hrun).
Defined.

(** ** The potentials and their forces *)

Lemma sign_respects_eq : respects_eq sign.
Proof.
  intros x y Hxy. unfold sign.
  assert (E : (x ?= 0) = (y ?= 0)).
  { apply Qcompare_comp; [assumption | reflexivity]. }
  rewrite E. reflexivity.
Qed.

Lemma sign_opp (x : Q) : sign (- x) == - sign x.
Proof.
  destruct (Q_dec x 0) as [[Hneg | Hpos] | Hzero].
  - rewrite (sign_negative x Hneg), sign_positive by lra. ring.
  - rewrite (sign_positive x Hpos), sign_negative by lra. ring.
  - rewrite (sign_respects_eq x 0 Hzero).
    assert (Hopp : - x == 0) by lra.
    rewrite (sign_respects_eq (- x) 0 Hopp). reflexivity.
Qed.

Lemma box_call_respects_eq (b : Box.BoxPotential) :
  respects_eq (call b).
Proof.
  intros x y Hxy. cbn [call BoxPotential_Potential]. unfold Box.call.
  assert (E : Qle_bool (Qabs (x - Box.center b)) (Box.half_width b)
              = Qle_bool (Qabs (y - Box.center b)) (Box.half_width b)).
  { apply Qleb_comp; [now rewrite Hxy | reflexivity]. }
  rewrite E.
  destruct (Qle_bool (Qabs (y - Box.center b)) (Box.half_width b));
    [reflexivity | now rewrite Hxy].
Qed.

Lemma box_force_respects_eq (b : Box.BoxPotential) :
  respects_eq (force b).
Proof.
  intros x y Hxy. cbn [force BoxPotential_Potential]. unfold Box.force.
  assert (E : Qle_bool (Qabs (x - Box.center b)) (Box.half_width b)
              = Qle_bool (Qabs (y - Box.center b)) (Box.half_width b)).
  { apply Qleb_comp; [now rewrite Hxy | reflexivity]. }
  rewrite E.
  destruct (Qle_bool (Qabs (y - Box.center b)) (Box.half_width b));
    [reflexivity|].
  rewrite (sign_respects_eq (x - Box.center b) (y - Box.center b))
    by now rewrite Hxy.
  now rewrite Hxy.
Qed.

Lemma harmonic_force_respects_eq (h : Harmonic.HarmonicPotential) :
  respects_eq (force h).
Proof.
  intros x y Hxy. cbn [force HarmonicPotential_Potential].
  unfold Harmonic.force. now rewrite Hxy.
Qed.

Lemma quartic_force_respects_eq (q : Quartic.QuarticPotential) :
  respects_eq (force q).
Proof.
  intros x y Hxy. cbn [force QuarticPotential_Potential].
  unfold Quartic.force. now rewrite Hxy.
Qed.

(** X5: the box is symmetric about its centre like the harmonic and the
    quartic potential: at [center + d] and [center - d] the potential energy
    is the same and the forces are opposite, for every width, centre,
    stiffness and [d]. *)
Theorem box_symmetry (w c s d : Q) :
  call (Box.init w c s) (c + d) == call (Box.init w c s) (c - d)
  /\ force (Box.init w c s) (c + d) == - force (Box.init w c s) (c - d).
Proof.
  assert (Hp : c + d - c == d) by ring.
  assert (Hm : c - d - c == - d) by ring.
  assert (Hpa : Qabs (c + d - c) == Qabs d) by now rewrite Hp.
  assert (Hma : Qabs (c - d - c) == Qabs d) by now rewrite Hm, Qabs_opp.
  destruct (Qlt_le_dec (w / 2) (Qabs d)) as [Hout | Hin].
  - destruct (box_outside w c s (c + d)) as [-> ->]; [now rewrite Hpa|].
    destruct (box_outside w c s (c - d)) as [-> ->]; [now rewrite Hma|].
    rewrite Hpa, Hma.
    rewrite (sign_respects_eq _ _ Hp), (sign_respects_eq _ _ Hm), sign_opp.
    split; ring.
  - destruct (box_inside w c s (c + d)) as [-> ->]; [now rewrite Hpa|].
    destruct (box_inside w c s (c - d)) as [-> ->]; [now rewrite Hma|].
    split; reflexivity.
Qed.

(** X6: the force of the harmonic and of the quartic potential is minus
    the slope of the potential energy.  Moving from [x] by [h] changes the
    potential energy by [- force(x) * h] up to terms of second order in
    [h], which are given exactly. *)
Theorem force_is_minus_slope (k a c x h : Q) :
  call (Harmonic.init k c) (x + h) - call (Harmonic.init k c) x
  == - force (Harmonic.init k c) x * h + (1 # 2) * k * h ^ 2
  /\ call (Quartic.init a c) (x + h) - call (Quartic.init a c) x
     == - force (Quartic.init a c) x * h
        + a * (6 * (x - c) ^ 2 + 4 * (x - c) * h + h ^ 2) * h ^ 2.
Proof.
  cbn [call force HarmonicPotential_Potential QuarticPotential_Potential].
  unfold Harmonic.call, Harmonic.force, Quartic.call, Quartic.force.
  cbn [Harmonic.k Harmonic.center Quartic.a Quartic.center].
  split; ring.
Qed.

(** X7: the same for the soft wall of the box: between two points beyond
    the same wall the potential energy changes by [- force(x) * h] and the
    second-order term [0.5 * wall_stiffness * h^2]. *)
Theorem box_force_is_minus_slope (w c s x h : Q) :
  (c + w / 2 < x /\ c + w / 2 < x + h)
  \/ (x < c - w / 2 /\ x + h < c - w / 2) ->
  0 <= w ->
  call (Box.init w c s) (x + h) - call (Box.init w c s) x
  == - force (Box.init w c s) x * h + (1 # 2) * s * h ^ 2.
Proof.
  intros Hside Hw.
  assert (Hh : 0 <= w / 2) by (apply Qle_shift_div_l; lra).
  revert Hside Hh. generalize (box_outside w c s). generalize (w / 2).
  intros b box_out [[Hx Hxh] | [Hx Hxh]] Hb.
  - destruct (box_out x) as [-> ->]; [rewrite Qabs_pos; lra|].
    destruct (box_out (x + h)) as [-> _]; [rewrite Qabs_pos; lra|].
    rewrite sign_positive by lra.
    rewrite (Qabs_pos (x - c)), (Qabs_pos (x + h - c)) by lra.
    ring.
  - destruct (box_out x) as [-> ->]; [rewrite Qabs_neg; lra|].
    destruct (box_out (x + h)) as [-> _]; [rewrite Qabs_neg; lra|].
    rewrite sign_negative by lra.
    rewrite (Qabs_neg (x - c)), (Qabs_neg (x + h - c)) by lra.
    ring.
Qed.

Lemma box_force_is_minus_slope_witness :
  call (Box.init 2 0 1000) (3 + 1) - call (Box.init 2 0 1000) 3
  == - force (Box.init 2 0 1000) 3 * 1 + (1 # 2) * 1000 * 1 ^ 2.
Proof.
  apply (box_force_is_minus_slope 2 0 1000 3 1).
  - left. split; reflexivity.
  - vm_compute. discriminate.
Defined.

(** X8: with a spring constant, a quartic coefficient and a wall
    stiffness that are not negative, the potential energy of the harmonic,
    quartic and box potentials is never negative, and their forces never
    point away from the centre: [force(x) * (x - center) <= 0]. *)
Theorem potentials_confine (k a w c s x : Q) :
  0 <= k -> 0 <= a -> 0 <= s ->
  (0 <= call (Harmonic.init k c) x
   /\ force (Harmonic.init k c) x * (x - c) <= 0)
  /\ (0 <= call (Quartic.init a c) x
      /\ force (Quartic.init a c) x * (x - c) <= 0)
  /\ (0 <= call (Box.init w c s) x
      /\ force (Box.init w c s) x * (x - c) <= 0).
Proof.
  intros Hk Ha Hs.
  split; [|split].
  - cbn [call force HarmonicPotential_Potential].
    unfold Harmonic.call, Harmonic.force.
    cbn [Harmonic.k Harmonic.center].
    generalize (x - c). intro u.
    assert (Hq : 0 <= u * u) by nra.
    assert (Hkq : 0 <= k * (u * u)) by now apply Qmult_le_0_compat.
    split.
    + setoid_replace ((1 # 2) * k * u ^ 2) with ((1 # 2) * (k * (u * u)))
        by ring.
      lra.
    + setoid_replace (- k * u * u) with (- (k * (u * u))) by ring.
      lra.
  - cbn [call force QuarticPotential_Potential].
    unfold Quartic.call, Quartic.force.
    cbn [Quartic.a Quartic.center].
    generalize (x - c). intro u.
    assert (Hq : 0 <= u * u) by nra.
    assert (Hqq : 0 <= u * u * (u * u)) by now apply Qmult_le_0_compat.
    assert (Haq : 0 <= a * (u * u * (u * u)))
      by now apply Qmult_le_0_compat.
    split.
    + setoid_replace (a * u ^ 4) with (a * (u * u * (u * u))) by ring.
      assumption.
    + setoid_replace (-4 * a * u ^ 3 * u)
        with (- (4 * (a * (u * u * (u * u))))) by ring.
      lra.
  - destruct (Qlt_le_dec (w / 2) (Qabs (x - c))) as [Hout | Hin].
    + destruct (box_outside w c s x Hout) as [-> ->].
      revert Hout. generalize (w / 2), (x - c). intros b u Hout.
      assert (Ho : 0 < Qabs u - b) by lra.
      revert Ho. generalize (Qabs u - b). intros o Ho.
      assert (Hso : 0 <= s * o) by (apply Qmult_le_0_compat; lra).
      split.
      * setoid_replace ((1 # 2) * s * o ^ 2) with ((1 # 2) * (s * o * o))
          by ring.
        assert (0 <= s * o * o) by (apply Qmult_le_0_compat; lra).
        lra.
      * destruct (Q_dec u 0) as [[Hneg | Hpos] | Hzero].
        -- rewrite sign_negative by assumption.
           setoid_replace (- - (1) * s * o * u) with (s * o * u) by ring.
           nra.
        -- rewrite sign_positive by assumption.
           setoid_replace (- (1) * s * o * u) with (- (s * o * u)) by ring.
           nra.
        -- rewrite (sign_respects_eq u 0 Hzero).
           change (sign 0) with 0.
           setoid_replace (- 0 * s * o * u) with 0 by ring.
           lra.
    + destruct (box_inside w c s x Hin) as [-> ->]. lra.
Qed.

Lemma potentials_confine_witness :
  0 <= call (Box.init 2 0 1000) 3
  /\ force (Box.init 2 0 1000) 3 * (3 - 0) <= 0.
Proof.
  assert (H0 : 0 <= 0) by (vm_compute; discriminate).
  assert (Hs : 0 <= 1000) by (vm_compute; discriminate).
  destruct (potentials_confine 0 0 2 0 1000 3 H0 H0 Hs) as (_ & _ & Hbox).
  exact Hbox.
Defined.

(** The force of the box, piece by piece, for a width that is not
    negative: [- wall_stiffness * g] where [g] is how far [x] is beyond the
    nearer wall, with its sign, and [0] between the walls. *)
Lemma box_force_piecewise (w c s x : Q) :
  0 <= w ->
  exists g,
    force (Box.init w c s) x == - s * g
    /\ ((- (w / 2) <= x - c <= w / 2 /\ g == 0)
        \/ (w / 2 < x - c /\ g == x - c - w / 2)
        \/ (x - c < - (w / 2) /\ g == x - c + w / 2)).
Proof.
  intro Hw.
  assert (Hb : 0 <= w / 2) by (apply Qle_shift_div_l; lra).
  revert Hb. generalize (box_inside w c s x) (box_outside w c s x).
  generalize (w / 2). intros b box_in box_out Hb.
  destruct (Qlt_le_dec b (x - c)) as [Hright | Hnr].
  - exists (x - c - b). split; [|right; left; split; [assumption|reflexivity]].
    destruct box_out as [_ ->]; [rewrite Qabs_pos; lra|].
    rewrite sign_positive, Qabs_pos by lra. ring.
  - destruct (Qlt_le_dec (x - c) (- b)) as [Hleft | Hnl].
    + exists (x - c + b).
      split; [|right; right; split; [assumption|reflexivity]].
      destruct box_out as [_ ->]; [rewrite Qabs_neg; lra|].
      rewrite sign_negative, Qabs_neg by lra. ring.
    + exists 0. split; [|left; split; [lra|reflexivity]].
      destruct box_in as [_ ->]; [apply Qabs_Qle_condition; lra|].
      ring.
Qed.

(** X9: for a width and a stiffness that are not negative the force of
    the box has no jump at the walls: between any two points it changes by
    at most [wall_stiffness] times their distance. *)
Theorem box_force_lipschitz (w c s x y : Q) :
  0 <= w -> 0 <= s ->
  Qabs (force (Box.init w c s) x - force (Box.init w c s) y)
  <= s * Qabs (x - y).
Proof.
  intros Hw Hs.
  destruct (box_force_piecewise w c s x Hw) as (gx & -> & Hgx).
  destruct (box_force_piecewise w c s y Hw) as (gy & -> & Hgy).
  assert (Hb : 0 <= w / 2) by (apply Qle_shift_div_l; lra).
  revert Hgx Hgy Hb. generalize (w / 2). intros b Hgx Hgy Hb.
  setoid_replace (- s * gx - - s * gy) with (s * (gy - gx)) by ring.
  rewrite Qabs_Qmult, (Qabs_pos s) by assumption.
  assert (Hg : Qabs (gy - gx) <= Qabs (x - y)).
  { apply Qabs_Qle_condition.
    apply (Qabs_case (x - y)); intro Hxy;
      destruct Hgx as [[Hx ->] | [[Hx ->] | [Hx ->]]];
      destruct Hgy as [[Hy ->] | [[Hy ->] | [Hy ->]]];
      split; lra. }
  revert Hg. generalize (Qabs (gy - gx)), (Qabs (x - y)). intros A B Hg.
  nra.
Qed.

Lemma box_force_lipschitz_witness :
  Qabs (force (Box.init 2 0 1000) (3 # 2) - force (Box.init 2 0 1000) 1)
  <= 1000 * Qabs ((3 # 2) - 1).
Proof.
  apply (box_force_lipschitz 2 0 1000 (3 # 2) 1); vm_compute; discriminate.
Defined.

(** ** Reversing the motion *)

Section Reversal.
Context {P : Type} `{Potential P}.
Variable pot : P.
Variable dt : Q.
Hypothesis force_respects_eq : respects_eq (force pot).

Lemma kick_drift_kick_same_motion (p q : Particle1D) :
  same_motion p q ->
  same_motion (kick_drift_kick pot dt p) (kick_drift_kick pot dt q).
Proof.
  intros (Hx & Hv & Hm).
  unfold same_motion, kick_drift_kick. cbn [position velocity mass].
  rewrite <- Hm.
  assert (Hf : force pot (position p) == force pot (position q))
    by now apply force_respects_eq.
  assert (Hx' : position p
                + (velocity p + force pot (position p) / mass p * (dt / 2))
                  * dt
                == position q
                   + (velocity q
                      + force pot (position q) / mass p * (dt / 2)) * dt)
    by now rewrite Hf, Hx, Hv.
  split; [exact Hx'|]. split; [|reflexivity].
  rewrite (force_respects_eq _ _ Hx'), Hf, Hv. reflexivity.
Qed.

(** One iteration, a reversal of the velocity and one more iteration
    bring the particle back, with its velocity reversed. *)
Lemma kick_drift_kick_reverse (p : Particle1D) :
  same_motion (kick_drift_kick pot dt (reverse (kick_drift_kick pot dt p)))
    (reverse p).
Proof.
  unfold same_motion, kick_drift_kick, reverse.
  cbn [position velocity mass].
  set (f0 := force pot (position p)).
  set (x1 := position p + (velocity p + f0 / mass p * (dt / 2)) * dt).
  set (f1 := force pot x1).
  assert (Hback :
            x1 + (- (velocity p + f0 / mass p * (dt / 2)
                     + f1 / mass p * (dt / 2))
                  + f1 / mass p * (dt / 2)) * dt
            == position p).
  { unfold x1. unfold Qdiv. ring. }
  split; [exact Hback|]. split; [|reflexivity].
  rewrite (force_respects_eq _ _ Hback). fold f0.
  unfold Qdiv. ring.
Qed.

Lemma iter_kick_drift_kick_same_motion (n : nat) (p q : Particle1D) :
  same_motion p q ->
  same_motion (Nat.iter n (kick_drift_kick pot dt) p)
    (Nat.iter n (kick_drift_kick pot dt) q).
Proof.
  intro Hpq. induction n as [|n IH]; [exact Hpq|].
  change (same_motion
            (kick_drift_kick pot dt (Nat.iter n (kick_drift_kick pot dt) p))
            (kick_drift_kick pot dt (Nat.iter n (kick_drift_kick pot dt) q))).
  now apply kick_drift_kick_same_motion.
Qed.

Lemma same_motion_trans (p q r : Particle1D) :
  same_motion p q -> same_motion q r -> same_motion p r.
Proof.
  intros (Hx & Hv & Hm) (Hx' & Hv' & Hm').
  repeat split; [now rewrite Hx | now rewrite Hv | congruence].
Qed.

Lemma iter_kick_drift_kick_reverse (n : nat) (p : Particle1D) :
  same_motion
    (Nat.iter n (kick_drift_kick pot dt)
       (reverse (Nat.iter n (kick_drift_kick pot dt) p)))
    (reverse p).
Proof.
  revert p. induction n as [|n IH]; intro p.
  - repeat split; reflexivity.
  - assert (E : kick_drift_kick pot dt (Nat.iter n (kick_drift_kick pot dt) p)
                 = Nat.iter n (kick_drift_kick pot dt)
                     (kick_drift_kick pot dt p))
      by (symmetry; apply Nat.iter_swap).
    change (same_motion
              (kick_drift_kick pot dt
                 (Nat.iter n (kick_drift_kick pot dt)
                    (reverse
                       (kick_drift_kick pot dt
                          (Nat.iter n (kick_drift_kick pot dt) p)))))
              (reverse p)).
    rewrite E.
    apply (same_motion_trans _
             (kick_drift_kick pot dt
                (reverse (kick_drift_kick pot dt p)))).
    + apply kick_drift_kick_same_motion. apply IH.
    + apply kick_drift_kick_reverse.
Qed.
End Reversal.

Section FinalParticle.
Context {P : Type} `{Potential P}.
Variable pot : P.
Variable duration : Q.
Variable dt : Q.

Lemma steps_inv_initial (p : Particle1D) : steps_inv pot dt p (initial pot p).
Proof.
  constructor; cbn [initial l_times length particle]; [lia | reflexivity].
Qed.

Lemma steps_inv_body (p : Particle1D) (s1 s2 : Locals) :
  steps_inv pot dt p s1 -> time s1 < duration ->
  loop_body pot dt s1 = Returned s2 -> steps_inv pot dt p s2.
Proof.
  intros [Hn Hp] _ Hstep.
  apply loop_body_returned in Hstep as [_ ->].
  constructor; cbn [record_sample l_times particle]; rewrite length_app;
    cbn [length]; [lia|].
  rewrite Hp.
  replace (length (l_times s1) + 1 - 1)%nat
    with (S (length (l_times s1) - 1)) by lia.
  reflexivity.
Qed.

(** A run that returns was given a duration that is not positive or a
    step that is. *)
Lemma simulate_particle_returned_cases (fuel : nat) (p : Particle1D)
    (r : Particle1D * Trajectory) :
  simulate_particle pot duration dt fuel p = Returned r ->
  duration <= 0 \/ 0 < dt.
Proof.
  intro Hrun.
  destruct (Qlt_le_dec 0 duration) as [Hdur | Hdur]; [|now left].
  destruct (Qlt_le_dec 0 dt) as [Hdt | Hdt]; [now right|].
  exfalso.
  destruct (Qeq_dec (mass p) 0) as [Hm | Hm].
  - unfold simulate_particle in Hrun. destruct fuel as [|fuel].
    + now rewrite while_loop_starved in Hrun.
    + now rewrite while_loop_zero_mass in Hrun.
  - unfold simulate_particle in Hrun.
    now rewrite while_loop_diverges in Hrun.
Qed.

(** The number of samples depends on the duration and the step only. *)
Lemma simulate_particle_lengths_agree (fuel1 fuel2 : nat)
    (p1 p2 p1' p2' : Particle1D) (tr1 tr2 : Trajectory) :
  simulate_particle pot duration dt fuel1 p1 = Returned (p1', tr1) ->
  simulate_particle pot duration dt fuel2 p2 = Returned (p2', tr2) ->
  length (times tr1) = length (times tr2).
Proof.
  intros Hrun1 Hrun2.
  destruct (simulate_particle_returned_cases _ _ _ Hrun1) as [Hdur | Hdt].
  - rewrite nonpositive_duration_sample in Hrun1, Hrun2 by assumption.
    injection Hrun1 as _ <-. injection Hrun2 as _ <-. reflexivity.
  - destruct (Qlt_le_dec 0 duration) as [Hdur | Hdur].
    + assert (Hlen : forall fuel p p' tr,
                 simulate_particle pot duration dt fuel p = Returned (p', tr) ->
                 Z.of_nat (length (times tr))
                 = (Qceiling (duration / dt) + 1)%Z).
      { intros fuel p p' tr Hrun.
        apply (simulate_particle_rule pot duration dt
                 (count_inv duration dt)) in Hrun
          as (s & Hres & Hcount & Hexit).
        - injection Hres as _ <-. now apply count_at_exit.
        - apply count_inv_initial.
        - apply count_inv_body. }
      apply Hlen in Hrun1, Hrun2. lia.
    + rewrite nonpositive_duration_sample in Hrun1, Hrun2 by assumption.
      injection Hrun1 as _ <-. injection Hrun2 as _ <-. reflexivity.
Qed.

Lemma simulate_particle_final (fuel : nat) (p p' : Particle1D)
    (tr : Trajectory) :
  simulate_particle pot duration dt fuel p = Returned (p', tr) ->
  p' = Nat.iter (length (times tr) - 1) (kick_drift_kick pot dt) p.
Proof.
  intro Hrun.
  apply (simulate_particle_rule pot duration dt (steps_inv pot dt p)) in Hrun
    as (s & Hres & [_ Hp] & _).
  - injection Hres as <- <-. exact Hp.
  - apply steps_inv_initial.
  - apply steps_inv_body.
Qed.
End FinalParticle.

(** X10: velocity Verlet is reversible.  For a potential whose force
    gives equal values at equal positions: when a run has returned, the
    velocity of the particle is reversed and the particle is simulated again
    for the same duration with the same step, it ends at the position where
    it started, with the velocity it started with reversed. *)
Theorem velocity_reversal_returns {P : Type} `{Potential P} (pot : P)
    (duration dt : Q) (fuel fuel' : nat) (p p1 p2 : Particle1D)
    (tr1 tr2 : Trajectory) :
  respects_eq (force pot) ->
  simulate_particle pot duration dt fuel p = Returned (p1, tr1) ->
  simulate_particle pot duration dt fuel' (reverse p1) = Returned (p2, tr2) ->
  position p2 == position p /\ velocity p2 == - velocity p.
Proof.
  intros Hf Hrun1 Hrun2.
  pose proof (simulate_particle_lengths_agree _ _ _ _ _ _ _ _ _ _ _
                Hrun1 Hrun2) as Hlen.
  apply simulate_particle_final in Hrun1, Hrun2.
  rewrite <- Hlen in Hrun2. subst p1 p2.
  destruct (iter_kick_drift_kick_reverse pot dt Hf
              (length (times tr1) - 1) p) as (Hx & Hv & _).
  now split.
Qed.

Lemma velocity_reversal_returns_witness :
  exists p1 tr1 p2 tr2,
    simulate_particle (Harmonic.init 1 0) (1 # 2) (1 # 4) 2 particle_moving
    = Returned (p1, tr1)
    /\ simulate_particle (Harmonic.init 1 0) (1 # 2) (1 # 4) 2 (reverse p1)
       = Returned (p2, tr2)
    /\ position p2 == 1 /\ velocity p2 == - (3).
Proof.
  assert (Hrun1 : { r | simulate_particle (Harmonic.init 1 0) (1 # 2) (1 # 4)
                          2 particle_moving = Returned r }).
  { eexists. vm_compute. reflexivity. }
  destruct Hrun1 as [[p1 tr1] Hrun1].
  assert (Hrun2 : { r | simulate_particle (Harmonic.init 1 0) (1 # 2) (1 # 4)
                          2 (reverse p1) = Returned r }).
  { vm_compute in Hrun1. injection Hrun1 as <- _.
    eexists. vm_compute. reflexivity. }
  destruct Hrun2 as [[p2 tr2] Hrun2].
  exists p1, tr1, p2, tr2.
  split; [exact Hrun1|]. split; [exact Hrun2|].
  apply (velocity_reversal_returns (Harmonic.init 1 0) (1 # 2) (1 # 4) 2 2
           particle_moving p1 p2 tr1 tr2
           (harmonic_force_respects_eq (Harmonic.init 1 0)) Hrun1 Hrun2).
Defined.

(** ** Rest, free flight and the harmonic orbit *)

Section Rest.
Context {P : Type} `{Potential P}.
Variable pot : P.
Variable duration : Q.
Variable dt : Q.
Variable p : Particle1D.
Hypothesis force_respects_eq : respects_eq (force pot).
Hypothesis at_rest : velocity p == 0.
Hypothesis no_force : force pot (position p) == 0.

Lemma rest_inv_initial : rest_inv p (initial pot p).
Proof.
  constructor; cbn [initial particle l_times l_positions l_velocities length];
    [apply aligned_initial | reflexivity | exact at_rest |].
  intros i Hi. assert (i = 0%nat) as -> by lia.
  cbn [nth]. split; [reflexivity | exact at_rest].
Qed.

Lemma rest_inv_body (s1 s2 : Locals) :
  rest_inv p s1 -> time s1 < duration ->
  loop_body pot dt s1 = Returned s2 -> rest_inv p s2.
Proof.
  intros [Hal Hx Hv Hs] _ Hstep.
  apply loop_body_returned in Hstep as [_ ->].
  pose proof Hal as [Hn Hlx Hlv _ _ _ _ _ _].
  assert (Hf : force pot (position (particle s1)) == 0).
  { rewrite (force_respects_eq _ _ Hx). exact no_force. }
  assert (Hx' : position (kick_drift_kick pot dt (particle s1))
                == position p).
  { unfold kick_drift_kick. cbn [position]. rewrite Hf, Hv, <- Hx.
    unfold Qdiv. ring. }
  assert (Hv' : velocity (kick_drift_kick pot dt (particle s1)) == 0).
  { unfold kick_drift_kick in Hx' |- *. cbn [position velocity] in Hx' |- *.
    rewrite (force_respects_eq _ _ Hx'), no_force, Hf, Hv.
    unfold Qdiv. ring. }
  constructor; cbn [record_sample particle l_times l_positions l_velocities];
    [now apply aligned_record_sample | exact Hx' | exact Hv' |].
  rewrite length_app. cbn [length]. intros i Hi.
  destruct (Nat.eq_dec i (length (l_times s1))) as [-> | Hne].
  - rewrite (nth_snoc_at (l_positions s1) _ _ _ Hlx),
      (nth_snoc_at (l_velocities s1) _ _ _ Hlv).
    now split.
  - assert (Hlo : (i < length (l_times s1))%nat) by lia.
    rewrite (nth_snoc_before (l_positions s1) _ _ _ _ Hlx Hlo),
      (nth_snoc_before (l_velocities s1) _ _ _ _ Hlv Hlo).
    now apply Hs.
Qed.
End Rest.

(** X11: a particle that is at rest where the force vanishes stays there:
    every recorded position is the initial one and every recorded velocity
    is zero, for every potential whose force gives equal values at equal
    positions. *)
Theorem rest_at_equilibrium {P : Type} `{Potential P} (pot : P)
    (duration dt : Q) (fuel : nat) (p p' : Particle1D) (tr : Trajectory)
    (i : nat) :
  respects_eq (force pot) ->
  velocity p == 0 ->
  force pot (position p) == 0 ->
  simulate_particle pot duration dt fuel p = Returned (p', tr) ->
  (i < length (times tr))%nat ->
  nth i (positions tr) 0 == position p /\ nth i (velocities tr) 0 == 0.
Proof.
  intros Hf Hv Hx Hrun Hi.
  apply (simulate_particle_rule pot duration dt (rest_inv p)) in Hrun
    as (s & Hres & [_ _ _ Hs] & _).
  - injection Hres as _ <-. now apply Hs.
  - now apply rest_inv_initial.
  - now apply rest_inv_body.
Qed.

Lemma rest_at_equilibrium_witness :
  exists p' tr,
    simulate_particle (Box.init 2 0 1000) (1 # 2) (1 # 4) 2
      (Particle1D_init 0 0 (Some (1 # 2)) (Some 0) 1)
    = Returned (p', tr)
    /\ nth 2 (positions tr) 0 == 1 # 2 /\ nth 2 (velocities tr) 0 == 0.
Proof.
  assert (Hrun : { r | simulate_particle (Box.init 2 0 1000) (1 # 2) (1 # 4) 2
                         (Particle1D_init 0 0 (Some (1 # 2)) (Some 0) 1)
                       = Returned r }).
  { eexists. vm_compute. reflexivity. }
  destruct Hrun as [[p' tr] Hrun].
  exists p', tr.
  split; [exact Hrun|].
  assert (Hlen : length (times tr) = 3%nat).
  { vm_compute in Hrun. injection Hrun as _ <-. reflexivity. }
  assert (Hv0 : velocity (Particle1D_init 0 0 (Some (1 # 2)) (Some 0) 1) == 0)
    by reflexivity.
  assert (Hf0 : force (Box.init 2 0 1000)
                  (position (Particle1D_init 0 0 (Some (1 # 2)) (Some 0) 1))
                == 0) by reflexivity.
  assert (Hi : (2 < length (times tr))%nat) by lia.
  exact (rest_at_equilibrium (Box.init 2 0 1000) (1 # 2) (1 # 4) 2 _ p' tr 2
           (box_force_respects_eq (Box.init 2 0 1000)) Hv0 Hf0 Hrun Hi).
Defined.

(** Where the force vanishes at every sample so far, the particle has
    flown freely. *)
Lemma free_flight {P : Type} `{Potential P} (pot : P) (dt : Q)
    (p : Particle1D) (s : Locals) (n : nat) :
  trace_inv pot dt p s ->
  (n < length (l_times s))%nat ->
  (forall j, (j <= n)%nat -> force pot (nth j (l_positions s) 0) == 0) ->
  nth n (l_velocities s) 0 == velocity p
  /\ nth n (l_positions s) 0
     == position p + velocity p * nth n (l_times s) 0.
Proof.
  intros [_ _ Ht0 Hx0 Hv0 Hver].
  induction n as [|n IH]; intros Hn Hzero.
  - rewrite Ht0, Hx0, Hv0. split; [reflexivity | ring].
  - destruct IH as [IHv IHx]; [lia | intros j Hj; apply Hzero; lia |].
    destruct (Hver (S n)) as (Hx & Hv & Ht); [lia|].
    replace (S n - 1)%nat with n in Hx, Hv, Ht by lia.
    rewrite (Hzero n) in Hx, Hv by lia.
    rewrite (Hzero (S n)) in Hv by lia.
    rewrite Hv, Hx, Ht, IHv, IHx. split; unfold Qdiv; ring.
Qed.

(** X12: while the recorded positions stay inside the box, the walls do
    nothing: up to the first sample outside, the velocity is the initial
    one and [positions[n] = positions[0] + velocities[0] * times[n]]. *)
Theorem box_free_flight (w c s duration dt : Q) (fuel : nat)
    (p p' : Particle1D) (tr : Trajectory) (n : nat) :
  simulate_particle (Box.init w c s) duration dt fuel p = Returned (p', tr) ->
  (n < length (times tr))%nat ->
  (forall j, (j <= n)%nat -> Qabs (nth j (positions tr) 0 - c) <= w / 2) ->
  nth n (velocities tr) 0 == nth 0 (velocities tr) 0
  /\ nth n (positions tr) 0
     == nth 0 (positions tr) 0 + nth 0 (velocities tr) 0 * nth n (times tr) 0.
Proof.
  intros Hrun Hn Hin.
  apply simulate_particle_trace in Hrun as (st & Hres & Hinv & _).
  injection Hres as _ <-. cbn [times positions velocities] in *.
  rewrite (ti_first_position _ _ _ _ Hinv), (ti_first_velocity _ _ _ _ Hinv).
  apply (free_flight _ _ _ _ _ Hinv Hn).
  intros j Hj.
  destruct (box_inside w c s _ (Hin j Hj)) as [_ ->]. reflexivity.
Qed.

Lemma box_free_flight_witness :
  exists p' tr,
    simulate_particle (Box.init 10 0 1000) (1 # 2) (1 # 4) 2 particle_moving
    = Returned (p', tr)
    /\ nth 2 (velocities tr) 0 == 3
    /\ nth 2 (positions tr) 0 == 1 + 3 * (1 # 2).
Proof.
  assert (Hrun : { r | simulate_particle (Box.init 10 0 1000) (1 # 2) (1 # 4)
                         2 particle_moving = Returned r }).
  { eexists. vm_compute. reflexivity. }
  destruct Hrun as [[p' tr] Hrun].
  exists p', tr.
  split; [exact Hrun|].
  assert (Hfacts : length (times tr) = 3%nat
                   /\ nth 0 (positions tr) 0 = 1
                   /\ nth 0 (velocities tr) 0 = 3
                   /\ nth 2 (times tr) 0 == 1 # 2
                   /\ forall j, (j <= 2)%nat ->
                        Qabs (nth j (positions tr) 0 - 0) <= 10 / 2).
  { vm_compute in Hrun. injection Hrun as _ <-.
    repeat split.
    intros j Hj.
    destruct j as [|[|[|j]]]; [| | |lia]; vm_compute; discriminate. }
  destruct Hfacts as (Hlen & Hx0 & Hv0 & Ht2 & Hin).
  assert (Hn : (2 < length (times tr))%nat) by lia.
  destruct (box_free_flight 10 0 1000 (1 # 2) (1 # 4) 2 particle_moving p' tr
              2 Hrun Hn Hin) as [Hv Hx].
  rewrite Hx0, Hv0, Ht2 in Hx. rewrite Hv0 in Hv.
  now split.
Defined.

Lemma shadow_step (k c dt : Q) (p : Particle1D) :
  ~ mass p == 0 ->
  shadow k c dt (mass p)
    (position (kick_drift_kick (Harmonic.init k c) dt p))
    (velocity (kick_drift_kick (Harmonic.init k c) dt p))
  == shadow k c dt (mass p) (position p) (velocity p).
Proof.
  intro Hm. unfold shadow, kick_drift_kick.
  cbn [position velocity mass force HarmonicPotential_Potential].
  unfold Harmonic.force. cbn [Harmonic.k Harmonic.center].
  field. exact Hm.
Qed.

Section HarmonicOrbit.
Variable k : Q.
Variable c : Q.
Variable duration : Q.
Variable dt : Q.
Variable p : Particle1D.

Lemma shadow_inv_initial :
  shadow_inv k c dt p (initial (Harmonic.init k c) p).
Proof.
  constructor; cbn [initial particle l_times l_positions l_velocities length];
    [apply aligned_initial | reflexivity | reflexivity |].
  intros i Hi. assert (i = 0%nat) as -> by lia. reflexivity.
Qed.

Lemma shadow_inv_body (s1 s2 : Locals) :
  shadow_inv k c dt p s1 -> time s1 < duration ->
  loop_body (Harmonic.init k c) dt s1 = Returned s2 ->
  shadow_inv k c dt p s2.
Proof.
  intros [Hal Hm Hp Hs] _ Hstep.
  apply loop_body_returned in Hstep as [Hnz ->].
  pose proof Hal as [Hn Hlx Hlv _ _ _ _ _ _].
  assert (Hp' :
            shadow k c dt (mass p)
              (position (kick_drift_kick (Harmonic.init k c) dt (particle s1)))
              (velocity (kick_drift_kick (Harmonic.init k c) dt (particle s1)))
            == shadow k c dt (mass p) (position p) (velocity p)).
  { rewrite <- Hp, <- Hm. now apply shadow_step. }
  constructor; cbn [record_sample particle l_times l_positions l_velocities];
    [now apply aligned_record_sample | exact Hm | exact Hp' |].
  rewrite length_app. cbn [length]. intros i Hi.
  destruct (Nat.eq_dec i (length (l_times s1))) as [-> | Hne].
  - rewrite (nth_snoc_at (l_positions s1) _ _ _ Hlx),
      (nth_snoc_at (l_velocities s1) _ _ _ Hlv).
    exact Hp'.
  - assert (Hlo : (i < length (l_times s1))%nat) by lia.
    rewrite (nth_snoc_before (l_positions s1) _ _ _ _ Hlx Hlo),
      (nth_snoc_before (l_velocities s1) _ _ _ _ Hlv Hlo).
    now apply Hs.
Qed.
End HarmonicOrbit.

(** X13: in the harmonic potential velocity Verlet keeps a shadow energy
    exactly.  With the spring constant softened to
    [k * (1 - k * dt^2 / (4 * mass))], the sum of the kinetic energy and of
    the energy of that spring is the same at every sample of a run, for
    every [k], centre, step and duration. *)
Theorem harmonic_shadow_energy_conserved (k c duration dt : Q) (fuel : nat)
    (p p' : Particle1D) (tr : Trajectory) (i : nat) :
  simulate_particle (Harmonic.init k c) duration dt fuel p
  = Returned (p', tr) ->
  (i < length (times tr))%nat ->
  shadow k c dt (mass p) (nth i (positions tr) 0) (nth i (velocities tr) 0)
  == shadow k c dt (mass p) (nth 0 (positions tr) 0)
       (nth 0 (velocities tr) 0).
Proof.
  intros Hrun Hi.
  apply (simulate_particle_rule (Harmonic.init k c) duration dt
           (shadow_inv k c dt p)) in Hrun
    as (s & Hres & [Hal _ _ Hs] & _).
  - injection Hres as _ <-. cbn [times positions velocities] in *.
    rewrite (Hs i Hi). symmetry. apply Hs. apply (al_nonempty _ Hal).
  - apply shadow_inv_initial.
  - apply shadow_inv_body.
Qed.

Lemma harmonic_shadow_energy_conserved_witness :
  exists p' tr,
    simulate_particle (Harmonic.init 4 0) (1 # 2) (1 # 4) 2 particle_moving
    = Returned (p', tr)
    /\ shadow 4 0 (1 # 4) 2 (nth 2 (positions tr) 0)
         (nth 2 (velocities tr) 0)
       == shadow 4 0 (1 # 4) 2 1 3.
Proof.
  assert (Hrun : { r | simulate_particle (Harmonic.init 4 0) (1 # 2) (1 # 4) 2
                         particle_moving = Returned r }).
  { eexists. vm_compute. reflexivity. }
  destruct Hrun as [[p' tr] Hrun].
  exists p', tr.
  split; [exact Hrun|].
  assert (Hfacts : length (times tr) = 3%nat
                   /\ nth 0 (positions tr) 0 = 1
                   /\ nth 0 (velocities tr) 0 = 3).
  { vm_compute in Hrun. injection Hrun as _ <-. repeat split. }
  destruct Hfacts as (Hlen & Hx0 & Hv0).
  rewrite <- Hx0, <- Hv0.
  apply (harmonic_shadow_energy_conserved 4 0 (1 # 2) (1 # 4) 2
           particle_moving p' tr 2 Hrun).
  lia.
Defined.

(** X14: the harmonic orbit stays bounded as long as the step resolves
    the oscillation, [k * dt^2 <= 4 * mass]: with [k > 0] and a positive
    mass no recorded kinetic energy exceeds the initial total energy, and
    neither does the energy of the softened spring at any recorded
    position, whatever the duration. *)
Theorem harmonic_orbit_bounded (k c duration dt : Q) (fuel : nat)
    (p p' : Particle1D) (tr : Trajectory) (i : nat) :
  0 < k -> 0 < mass p -> k * dt ^ 2 <= 4 * mass p ->
  simulate_particle (Harmonic.init k c) duration dt fuel p
  = Returned (p', tr) ->
  (i < length (times tr))%nat ->
  nth i (kinetic (energies tr)) 0 <= nth 0 (total (energies tr)) 0
  /\ (1 # 2) * (k * (1 - k * dt ^ 2 / (4 * mass p)))
     * (nth i (positions tr) 0 - c) ^ 2
     <= nth 0 (total (energies tr)) 0.
Proof.
  intros Hk Hm Hdt Hrun Hi.
  apply (simulate_particle_rule (Harmonic.init k c) duration dt
           (fun s => energy_record_inv (Harmonic.init k c) (mass p) s
                     /\ shadow_inv k c dt p s
                     /\ trace_inv (Harmonic.init k c) dt p s)) in Hrun
    as (s & Hres & ([Hal _ He] & [_ _ _ Hs] & Htr) & _).
  - injection Hres as _ <-.
    cbn [times positions velocities energies kinetic total] in *.
    destruct (He i Hi) as (-> & _ & _).
    destruct (He 0%nat (al_nonempty _ Hal)) as (Hk0 & Hp0 & ->).
    rewrite Hk0, Hp0.
    rewrite (ti_first_position _ _ _ _ Htr), (ti_first_velocity _ _ _ _ Htr).
    specialize (Hs i Hi). unfold shadow in Hs.
    cbn [call HarmonicPotential_Potential]. unfold Harmonic.call.
    cbn [Harmonic.k Harmonic.center].
    set (m := mass p) in *.
    set (eps := k * dt ^ 2 / (4 * m)) in *.
    assert (Heps0 : 0 <= eps).
    { unfold eps. apply Qle_shift_div_l; [lra|].
      pose proof (Qsquare_nonneg dt). nra. }
    assert (Heps1 : eps <= 1).
    { unfold eps. apply Qle_shift_div_r; lra. }
    pose proof (Qsquare_nonneg (nth i (l_velocities s) 0)) as Hv.
    pose proof (Qsquare_nonneg (nth i (l_positions s) 0 - c)) as Hu.
    pose proof (Qsquare_nonneg (position p - c)) as Hu0.
    revert Hs Hv Hu Hu0.
    generalize (nth i (l_velocities s) 0 ^ 2),
      ((nth i (l_positions s) 0 - c) ^ 2), (velocity p ^ 2),
      ((position p - c) ^ 2).
    intros v2 u2 v02 u02 Hs Hv Hu Hu0.
    assert (HA : 0 <= (1 # 2) * m * v2) by nra.
    assert (Hsoft : 0 <= k * (1 - eps)) by nra.
    assert (HB : 0 <= (1 # 2) * (k * (1 - eps)) * u2) by nra.
    assert (HB0 : (1 # 2) * (k * (1 - eps)) * u02 <= (1 # 2) * k * u02).
    { assert (0 <= k * eps) by nra.
      assert (0 <= k * eps * u02) by nra.
      lra. }
    split; lra.
  - split; [apply energy_record_inv_initial|].
    split; [apply shadow_inv_initial | apply trace_inv_initial].
  - intros s1 s2 (He & Hs & Htr) Hlt Hstep. split; [|split].
    + now apply (energy_record_inv_body _ duration dt _ s1 s2).
    + now apply (shadow_inv_body k c duration dt p s1 s2).
    + now apply (trace_inv_body _ duration dt p s1 s2).
Qed.

Lemma harmonic_orbit_bounded_witness :
  exists p' tr,
    simulate_particle (Harmonic.init 4 0) (1 # 2) (1 # 4) 2 particle_moving
    = Returned (p', tr)
    /\ nth 2 (kinetic (energies tr)) 0 <= nth 0 (total (energies tr)) 0.
Proof.
  assert (Hrun : { r | simulate_particle (Harmonic.init 4 0) (1 # 2) (1 # 4) 2
                         particle_moving = Returned r }).
  { eexists. vm_compute. reflexivity. }
  destruct Hrun as [[p' tr] Hrun].
  exists p', tr.
  split; [exact Hrun|].
  assert (Hlen : length (times tr) = 3%nat).
  { vm_compute in Hrun. injection Hrun as _ <-. reflexivity. }
  assert (Hk : 0 < 4) by reflexivity.
  assert (Hm : 0 < mass particle_moving) by reflexivity.
  assert (Hdt : 4 * (1 # 4) ^ 2 <= 4 * mass particle_moving)
    by (vm_compute; discriminate).
  assert (Hi : (2 < length (times tr))%nat) by lia.
  destruct (harmonic_orbit_bounded 4 0 (1 # 2) (1 # 4) 2 particle_moving p' tr
              2 Hk Hm Hdt Hrun Hi) as [Hkin _].
  exact Hkin.
Defined.

(** ** Division by the mass *)




(** ** Mirror images *)

Lemma harmonic_odd_about (k c : Q) : odd_about (Harmonic.init k c) c.
Proof.
  intro x. cbn [force HarmonicPotential_Potential]. unfold Harmonic.force.
  cbn [Harmonic.k Harmonic.center]. ring.
Qed.

Lemma quartic_odd_about (a c : Q) : odd_about (Quartic.init a c) c.
Proof.
  intro x. cbn [force QuarticPotential_Potential]. unfold Quartic.force.
  cbn [Quartic.a Quartic.center]. ring.
Qed.

Lemma box_odd_about (w c s : Q) : odd_about (Box.init w c s) c.
Proof.
  intro x.
  assert (Hm : 2 * c - x - c == - (x - c)) by ring.
  assert (Hma : Qabs (2 * c - x - c) == Qabs (x - c))
    by now rewrite Hm, Qabs_opp.
  destruct (Qlt_le_dec (w / 2) (Qabs (x - c))) as [Hout | Hin].
  - destruct (box_outside w c s (2 * c - x)) as [_ ->]; [now rewrite Hma|].
    destruct (box_outside w c s x Hout) as [_ ->].
    rewrite Hma, (sign_respects_eq _ _ Hm), sign_opp. ring.
  - destruct (box_inside w c s (2 * c - x)) as [_ ->]; [now rewrite Hma|].
    destruct (box_inside w c s x Hin) as [_ ->]. reflexivity.
Qed.

Section Iterates.
Context {P : Type} `{Potential P}.
Variable pot : P.
Variable duration : Q.
Variable dt : Q.

Lemma iterates_inv_initial (p : Particle1D) :
  iterates_inv pot dt p (initial pot p).
Proof.
  constructor; cbn [initial particle l_times l_positions l_velocities length];
    [apply aligned_initial | reflexivity |].
  intros i Hi. assert (i = 0%nat) as -> by lia. split; reflexivity.
Qed.

Lemma iterates_inv_body (p : Particle1D) (s1 s2 : Locals) :
  iterates_inv pot dt p s1 -> time s1 < duration ->
  loop_body pot dt s1 = Returned s2 -> iterates_inv pot dt p s2.
Proof.
  intros [Hal Hp Hs] _ Hstep.
  apply loop_body_returned in Hstep as [_ ->].
  pose proof Hal as [Hn Hlx Hlv _ _ _ _ _ _].
  assert (Hnext : kick_drift_kick pot dt (particle s1)
                  = Nat.iter (length (l_times s1)) (kick_drift_kick pot dt) p).
  { rewrite Hp. destruct (length (l_times s1)) as [|n]; [lia|].
    replace (S n - 1)%nat with n by lia. reflexivity. }
  constructor; cbn [record_sample particle l_times l_positions l_velocities];
    [now apply aligned_record_sample | |]; rewrite length_app; cbn [length].
  - rewrite Hnext. f_equal. lia.
  - intros i Hi.
    destruct (Nat.eq_dec i (length (l_times s1))) as [-> | Hne].
    + rewrite (nth_snoc_at (l_positions s1) _ _ _ Hlx),
        (nth_snoc_at (l_velocities s1) _ _ _ Hlv), Hnext.
      split; reflexivity.
    + assert (Hlo : (i < length (l_times s1))%nat) by lia.
      rewrite (nth_snoc_before (l_positions s1) _ _ _ _ Hlx Hlo),
        (nth_snoc_before (l_velocities s1) _ _ _ _ Hlv Hlo).
      now apply Hs.
Qed.

Lemma simulate_particle_iterates (fuel : nat) (p p' : Particle1D)
    (tr : Trajectory) (i : nat) :
  simulate_particle pot duration dt fuel p = Returned (p', tr) ->
  (i < length (times tr))%nat ->
  nth i (positions tr) 0 = position (Nat.iter i (kick_drift_kick pot dt) p)
  /\ nth i (velocities tr) 0
     = velocity (Nat.iter i (kick_drift_kick pot dt) p).
Proof.
  intros Hrun Hi.
  apply (simulate_particle_rule pot duration dt (iterates_inv pot dt p))
    in Hrun as (s & Hres & [_ _ Hs] & _).
  - injection Hres as _ <-. now apply Hs.
  - apply iterates_inv_initial.
  - apply iterates_inv_body.
Qed.

Variable c : Q.
Hypothesis force_respects_eq : respects_eq (force pot).
Hypothesis force_odd : odd_about pot c.

Lemma kick_drift_kick_mirror (p : Particle1D) :
  same_motion (kick_drift_kick pot dt (mirror c p))
    (mirror c (kick_drift_kick pot dt p)).
Proof.
  unfold same_motion, kick_drift_kick, mirror, Particle1D_init.
  cbn [position velocity mass].
  set (f0 := force pot (position p)).
  set (x1 := position p + (velocity p + f0 / mass p * (dt / 2)) * dt).
  assert (Hx : 2 * c - position p
               + (- velocity p
                  + force pot (2 * c - position p) / mass p * (dt / 2)) * dt
               == 2 * c - x1).
  { rewrite (force_odd (position p) : _ == _). fold f0.
    unfold x1, Qdiv. ring. }
  split; [exact Hx|]. split; [|reflexivity].
  rewrite (force_respects_eq _ _ Hx), (force_odd x1 : _ == _),
    (force_odd (position p) : _ == _).
  fold f0. unfold x1, Qdiv. ring.
Qed.

Lemma iter_kick_drift_kick_mirror (n : nat) (p : Particle1D) :
  same_motion (Nat.iter n (kick_drift_kick pot dt) (mirror c p))
    (mirror c (Nat.iter n (kick_drift_kick pot dt) p)).
Proof.
  induction n as [|n IH]; [repeat split; reflexivity|].
  change (same_motion
            (kick_drift_kick pot dt
               (Nat.iter n (kick_drift_kick pot dt) (mirror c p)))
            (mirror c
               (kick_drift_kick pot dt
                  (Nat.iter n (kick_drift_kick pot dt) p)))).
  apply (same_motion_trans _
           (kick_drift_kick pot dt
              (mirror c (Nat.iter n (kick_drift_kick pot dt) p)))).
  - now apply kick_drift_kick_same_motion.
  - apply kick_drift_kick_mirror.
Qed.
End Iterates.

(** X17: a potential whose force is odd about [c], as the forces of the
    harmonic, the quartic and the box potential are about their centres,
    moves the mirror image of a particle along the mirror image of its
    trajectory: started at [2c - x] with velocity [-v], the run records as
    many samples, at positions [2c - positions[i]] with velocities
    [- velocities[i]]. *)
Theorem mirror_symmetry {P : Type} `{Potential P} (pot : P)
    (c duration dt : Q) (fuel fuel' : nat) (p p1 p2 : Particle1D)
    (tr1 tr2 : Trajectory) :
  respects_eq (force pot) -> odd_about pot c ->
  simulate_particle pot duration dt fuel p = Returned (p1, tr1) ->
  simulate_particle pot duration dt fuel' (mirror c p) = Returned (p2, tr2) ->
  length (times tr2) = length (times tr1)
  /\ forall i, (i < length (times tr1))%nat ->
       nth i (positions tr2) 0 == 2 * c - nth i (positions tr1) 0
       /\ nth i (velocities tr2) 0 == - nth i (velocities tr1) 0.
Proof.
  intros Hf Hodd Hrun1 Hrun2.
  pose proof (simulate_particle_lengths_agree _ _ _ _ _ _ _ _ _ _ _
                Hrun1 Hrun2) as Hlen.
  split; [now symmetry|].
  intros i Hi.
  destruct (simulate_particle_iterates _ _ _ _ _ _ _ i Hrun1 Hi) as [-> ->].
  rewrite Hlen in Hi.
  destruct (simulate_particle_iterates _ _ _ _ _ _ _ i Hrun2 Hi) as [-> ->].
  destruct (iter_kick_drift_kick_mirror pot dt c Hf Hodd i p)
    as (Hx & Hv & _).
  now split.
Qed.

Lemma mirror_symmetry_witness :
  exists p1 tr1 p2 tr2,
    simulate_particle (Box.init 1 0 10) (1 # 2) (1 # 4) 2 particle_moving
    = Returned (p1, tr1)
    /\ simulate_particle (Box.init 1 0 10) (1 # 2) (1 # 4) 2
         (mirror 0 particle_moving)
       = Returned (p2, tr2)
    /\ nth 2 (positions tr2) 0 == 2 * 0 - nth 2 (positions tr1) 0.
Proof.
  assert (Hrun1 : { r | simulate_particle (Box.init 1 0 10) (1 # 2) (1 # 4) 2
                          particle_moving = Returned r }).
  { eexists. vm_compute. reflexivity. }
  destruct Hrun1 as [[p1 tr1] Hrun1].
  assert (Hrun2 : { r | simulate_particle (Box.init 1 0 10) (1 # 2) (1 # 4) 2
                          (mirror 0 particle_moving) = Returned r }).
  { eexists. vm_compute. reflexivity. }
  destruct Hrun2 as [[p2 tr2] Hrun2].
  exists p1, tr1, p2, tr2.
  split; [exact Hrun1|]. split; [exact Hrun2|].
  assert (Hlen : length (times tr1) = 3%nat).
  { vm_compute in Hrun1. injection Hrun1 as _ <-. reflexivity. }
  destruct (mirror_symmetry (Box.init 1 0 10) 0 (1 # 2) (1 # 4) 2 2
              particle_moving p1 p2 tr1 tr2
              (box_force_respects_eq (Box.init 1 0 10))
              (box_odd_about 1 0 10) Hrun1 Hrun2) as [_ Hall].
  apply Hall. lia.
Defined.

(** ** Continuing a run *)

(** X18: a run can be continued from the particle that it has mutated.
    When a first run has returned, a second run from its final particle
    records the samples that one run from the initial state records from
    there on, and ends with the same particle, whenever the one run takes as
    many steps as the two together. *)
Theorem run_continues {P : Type} `{Potential P} (pot : P)
    (d1 d2 d3 dt : Q) (fuel1 fuel2 fuel3 : nat) (p p1 p2 p3 : Particle1D)
    (tr1 tr2 tr3 : Trajectory) :
  simulate_particle pot d1 dt fuel1 p = Returned (p1, tr1) ->
  simulate_particle pot d2 dt fuel2 p1 = Returned (p2, tr2) ->
  simulate_particle pot d3 dt fuel3 p = Returned (p3, tr3) ->
  (length (times tr3) + 1 = length (times tr1) + length (times tr2))%nat ->
  p3 = p2
  /\ forall i, (i < length (times tr2))%nat ->
       nth (length (times tr1) - 1 + i) (positions tr3) 0
       = nth i (positions tr2) 0
       /\ nth (length (times tr1) - 1 + i) (velocities tr3) 0
          = nth i (velocities tr2) 0.
Proof.
  intros Hrun1 Hrun2 Hrun3 Hlen.
  pose proof (simulate_particle_final _ _ _ _ _ _ _ Hrun1) as Hp1.
  pose proof (simulate_particle_final _ _ _ _ _ _ _ Hrun2) as Hp2.
  pose proof (simulate_particle_final _ _ _ _ _ _ _ Hrun3) as Hp3.
  assert (Hn1 : (0 < length (times tr1))%nat).
  { apply simulate_particle_trace in Hrun1 as (s & Hres & Hinv & _).
    injection Hres as _ <-. apply (al_nonempty _ (ti_aligned _ _ _ _ Hinv)). }
  assert (Hn2 : (0 < length (times tr2))%nat).
  { apply simulate_particle_trace in Hrun2 as (s & Hres & Hinv & _).
    injection Hres as _ <-. apply (al_nonempty _ (ti_aligned _ _ _ _ Hinv)). }
  assert (Hadd : forall i,
             Nat.iter (length (times tr1) - 1 + i) (kick_drift_kick pot dt) p
             = Nat.iter i (kick_drift_kick pot dt) p1).
  { intro i. rewrite Hp1, Nat.add_comm. apply Nat.iter_add. }
  split.
  - rewrite Hp3, Hp2.
    replace (length (times tr3) - 1)%nat
      with (length (times tr1) - 1 + (length (times tr2) - 1))%nat by lia.
    apply Hadd.
  - intros i Hi.
    destruct (simulate_particle_iterates _ _ _ _ _ _ _ i Hrun2 Hi)
      as [-> ->].
    assert (Hi3 : (length (times tr1) - 1 + i < length (times tr3))%nat)
      by lia.
    destruct (simulate_particle_iterates _ _ _ _ _ _ _ _ Hrun3 Hi3)
      as [-> ->].
    now rewrite Hadd.
Qed.

Lemma run_continues_witness :
  exists p1 tr1 p2 tr2 p3 tr3,
    simulate_particle (Quartic.init 1 0) (1 # 4) (1 # 4) 1 particle_moving
    = Returned (p1, tr1)
    /\ simulate_particle (Quartic.init 1 0) (1 # 4) (1 # 4) 1 p1
       = Returned (p2, tr2)
    /\ simulate_particle (Quartic.init 1 0) (1 # 2) (1 # 4) 2 particle_moving
       = Returned (p3, tr3)
    /\ p3 = p2.
Proof.
  assert (Hrun1 : { r | simulate_particle (Quartic.init 1 0) (1 # 4) (1 # 4) 1
                          particle_moving = Returned r }).
  { eexists. vm_compute. reflexivity. }
  destruct Hrun1 as [[p1 tr1] Hrun1].
  assert (Hrun2 : { r | simulate_particle (Quartic.init 1 0) (1 # 4) (1 # 4) 1
                          p1 = Returned r }).
  { vm_compute in Hrun1. injection Hrun1 as <- _.
    eexists. vm_compute. reflexivity. }
  destruct Hrun2 as [[p2 tr2] Hrun2].
  assert (Hrun3 : { r | simulate_particle (Quartic.init 1 0) (1 # 2) (1 # 4) 2
                          particle_moving = Returned r }).
  { eexists. vm_compute. reflexivity. }
  destruct Hrun3 as [[p3 tr3] Hrun3].
  exists p1, tr1, p2, tr2, p3, tr3.
  split; [exact Hrun1|]. split; [exact Hrun2|]. split; [exact Hrun3|].
  assert (Hlen : (length (times tr3) + 1
                  = length (times tr1) + length (times tr2))%nat).
  { assert (H1 : length (times tr1) = 2%nat).
    { vm_compute in Hrun1. injection Hrun1 as _ <-. reflexivity. }
    assert (H3 : length (times tr3) = 3%nat).
    { vm_compute in Hrun3. injection Hrun3 as _ <-. reflexivity. }
    assert (H2 : Z.of_nat (length (times tr2)) = 2%Z).
    { apply (simulate_particle_rule (Quartic.init 1 0) (1 # 4) (1 # 4)
               (count_inv (1 # 4) (1 # 4))) in Hrun2
        as (s & Hres & Hcount & Hexit).
      - injection Hres as _ <-.
        now apply (count_at_exit (1 # 4) (1 # 4) s).
      - apply count_inv_initial.
      - apply count_inv_body. }
    lia. }
  apply (run_continues _ _ _ _ _ _ _ _ _ _ _ _ _ _ _ Hrun1 Hrun2 Hrun3 Hlen).
Defined.
